(** * bookshelf-paranoia: soft deletion for bookshelf models

    A shallow embedding of [src/index.js], the plugin that turns
    [Model#destroy] into a marker write, filters marked rows out of every
    read and cascades the soft delete to the dependents of a model.

    JavaScript objects used as dictionaries (operation options, attribute
    hashes) are finite maps with string keys.  Option objects are passed
    by reference in the source and mutated in place, so they live in a
    heap and are named by their address.  Everything the plugin asks of
    bookshelf, knex and the application (event handlers, the database,
    relation fetches, the clock) is a variable of a section: the plugin is
    verified for every host. *)

From stdpp Require Import gmap strings list fin_maps.

Open Scope string_scope.
Open Scope list_scope.
Open Scope nat_scope.

(** ** JavaScript values *)

Module Js.

(** Primitive values, as they occur in attribute hashes and options.
    [JHost] is an opaque object of the host (a knex transaction, a
    constructor); two of them are the same object when their numbers are
    equal. *)
Inductive jsval : Type :=
| JUndefined
| JNull
| JBool (b : bool)
| JNum (n : Z)
| JStr (s : string)
| JDate (ms : Z)
| JHost (h : nat).

#[global] Instance jsval_eq_dec : EqDecision jsval.
Proof. solve_decision. Defined.

(** An attribute hash: column name to value. *)
Abbreviation attrs := (gmap string jsval).

(** What a key of an options object can hold: a primitive, an attribute
    hash ([previousAttributes]) or an array of rows ([parentResponse]). *)
Inductive optval : Type :=
| OVal (v : jsval)
| OObj (o : attrs)
| OArr (rows : list attrs).

#[global] Instance optval_eq_dec : EqDecision optval.
Proof. solve_decision. Defined.

(** An options object. *)
Abbreviation object := (gmap string optval).

(** [ToBoolean]: what [if (v)] tests. *)
Definition truthy (v : jsval) : bool :=
  match v with
  | JUndefined | JNull => false
  | JBool b => b
  | JNum n => negb (n =? 0)%Z
  | JStr s => negb (String.eqb s "")
  | JDate _ | JHost _ => true
  end.

(** Objects and arrays are truthy, also the empty ones. *)
Definition truthy_opt (v : optval) : bool :=
  match v with
  | OVal p => truthy p
  | OObj _ | OArr _ => true
  end.

(** [o.k]: reading a missing key gives [undefined]. *)
Definition prop (o : object) (k : string) : optval :=
  default (OVal JUndefined) (o !! k).

(** [v === true] *)
Definition is_true (v : jsval) : bool :=
  match v with JBool true => true | _ => false end.

Definition is_true_opt (v : optval) : bool :=
  match v with OVal p => is_true p | _ => false end.

Definition is_undefined (v : jsval) : bool :=
  match v with JUndefined => true | _ => false end.

Definition is_undefined_opt (v : optval) : bool :=
  match v with OVal p => is_undefined p | _ => false end.

(** [lodash.merge(object, source)] on flat objects: every key of [source]
    is assigned to [object], except that an [undefined] source value does
    not overwrite a key that [object] already has. *)
Definition merge {A : Type} (undef : A → bool) (obj source : gmap string A)
  : gmap string A :=
  union_with (λ d s, Some (if undef s then d else s)) obj source.

End Js.
Import Js.

(** ** The plugin's settings (Marker Policy) *)

Record EventsCfg : Type := {
  ev_destroying : bool;
  ev_updating : bool;
  ev_saving : bool;
  ev_destroyed : bool;
  ev_updated : bool;
  ev_saved : bool
}.

(** [events = None] models a falsy [settings.events] (hooks disabled as a
    whole); [sentinel = None] is [null]. *)
Record Settings : Type := {
  field : string;
  sentinel : option string;
  events : option EventsCfg
}.

Definition default_events : EventsCfg :=
  {| ev_destroying := true; ev_updating := false; ev_saving := false;
     ev_destroyed := true; ev_updated := false; ev_saved := false |}.

Definition default_settings : Settings :=
  {| field := "deleted_at"; sentinel := None; events := Some default_events |}.

(** [if (settings.sentinel)]: [null] and the empty string are falsy. *)
Definition sentinel_set (s : Settings) : option string :=
  match sentinel s with
  | Some k => if String.eqb k "" then None else Some k
  | None => None
  end.

(** ** Read filter *)

(** The part of a knex query builder the plugin touches: its list of
    where-clauses, in the order they were added. *)
Inductive Clause : Type :=
| WhereNull (column : string)
| WhereEq (column : string) (v : jsval).

#[global] Instance Clause_eq_dec : EqDecision Clause.
Proof. solve_decision. Defined.

Abbreviation Query := (list Clause).

Definition whereNull (column : string) (q : Query) : Query :=
  q ++ [WhereNull column].

(** The receiver [this] of [skipDeleted]: a model or a collection.
    [recv_model] is [this.model], given by the [softDelete] flag of its
    prototype; a model instance has no such property. *)
Record Receiver : Type := {
  recv_model : option jsval;
  recv_softDelete : jsval;
  recv_tableName : string
}.

(** [this.model ? this.model.prototype.softDelete : this.softDelete] *)
Definition softDelete_of (this : Receiver) : jsval :=
  match recv_model this with
  | Some flag => flag
  | None => recv_softDelete this
  end.

Section ReadFilter.

Variable settings : Settings.

Definition marker_column (this : Receiver) : string :=
  recv_tableName this +:+ "." +:+ field settings.

(** [skipDeleted(model, attrs, options)], called on [this].  The query
    builder [options.query] is threaded explicitly. *)
Definition skipDeleted (this : Receiver) (options : object) (query : Query)
  : Query :=
  if negb (truthy_opt (prop options "isEager"))
     || truthy_opt (prop options "parentResponse")
  then
    if is_true (softDelete_of this)
       && negb (is_true_opt (prop options "withDeleted"))
    then whereNull (marker_column this) query
    else query
  else query.

(** The listeners the plugin registers in [initialize]. *)
Inductive Listener : Type :=
| LSkipDeleted   (* skipDeleted.bind(this) *)
| LCounting.     (* (collection, options) => skipDeleted.call(this, null, null, options) *)

Definition Collection_listeners : list (string * Listener) :=
  [("fetching", LSkipDeleted); ("counting", LCounting)].

Definition Model_listeners : list (string * Listener) :=
  [("fetching", LSkipDeleted); ("fetching:collection", LSkipDeleted)].

(** An argument of an event: the options object, or something the
    listeners do not look at. *)
Inductive EvArg : Type :=
| ArgOther
| ArgOptions (options : object).

(** Calling a listener with the arguments of the event.  [None] is the
    [TypeError] of reading a property of [undefined]. *)
Definition call_listener (this : Receiver) (l : Listener) (args : list EvArg)
    (query : Query) : option Query :=
  match l with
  | LSkipDeleted =>
      match args !! 2%nat with
      | Some (ArgOptions o) => Some (skipDeleted this o query)
      | _ => None
      end
  | LCounting =>
      match args !! 1%nat with
      | Some (ArgOptions o) => Some (skipDeleted this o query)
      | _ => None
      end
  end.

(** Emitting [event] runs the listeners registered under that name. *)
Fixpoint emit (this : Receiver) (ls : list (string * Listener))
    (event : string) (args : list EvArg) (query : Query) : option Query :=
  match ls with
  | [] => Some query
  | (name, l) :: rest =>
      if String.eqb name event then
        match call_listener this l args query with
        | Some q' => emit this rest event args q'
        | None => None
        end
      else emit this rest event args query
  end.




(** ** Model initialisation *)

(** The [defaults] of a model after [initialize]: [None] is an absent
    [defaults] property, which [merge] ignores as a source. *)
Definition Model_initialize (softDelete : jsval) (defaults : option attrs)
  : option attrs :=
  match sentinel_set settings with
  | Some s =>
      if is_true softDelete
      then Some (merge is_undefined {[ s := JBool true ]} (default ∅ defaults))
      else defaults
  | None => defaults
  end.

End ReadFilter.

(** ** Models, relations and the world a destroy runs in *)

(** The in-memory state of a model instance that the plugin reads or
    writes. *)
Record Instance : Type := {
  attributes : attrs;
  _previousAttributes : attrs;
  changed : attrs
}.

(** The properties a model class puts on its prototype. [dependents] is
    [None] when the class does not declare the property. *)
Record Class : Type := {
  softDelete : jsval;
  tableName : string;
  idAttribute : string;
  dependents : option (list string);
  format : attrs → attrs
}.

(** [relation.relatedData.type] and [relation instanceof bookshelf.Model]. *)
Record RelatedData : Type := {
  rd_type : string;
  rd_is_model : bool
}.

#[local] Unset Elimination Schemes.
(** A model class with its relation methods; each relation names its
    target class. *)
Inductive Proto : Type :=
| MkProto (cls : Class) (relations : list (string * (RelatedData * Proto))).
#[local] Set Elimination Schemes.

Definition proto_class (p : Proto) : Class :=
  match p with MkProto cls _ => cls end.

Definition proto_relations (p : Proto)
  : list (string * (RelatedData * Proto)) :=
  match p with MkProto _ rels => rels end.

Abbreviation loc := nat.

Inductive Error : Type :=
| NoRowsDeletedError (message : string)
| TypeError (message : string)
| HostError (reason : string).

Inductive result (A : Type) : Type :=
| Ok (a : A)
| Err (e : Error).
Arguments Ok {A} a.
Arguments Err {A} e.

(** What [knex.update(attrs, returning)] resolves to: the number of
    affected rows on drivers without RETURNING (sqlite3, mysql), the
    array of returned identifiers on the others (pg). *)
Inductive Resp : Type :=
| RespCount (n : nat)
| RespRows (ids : list jsval).

Definition rows_affected (r : Resp) : nat :=
  match r with
  | RespCount n => n
  | RespRows ids => length ids
  end.

(** [lodash.isempty]: an array is empty when its length is 0; a number
    has no enumerable keys and is always empty. *)
Definition isEmpty (r : Resp) : bool :=
  match r with
  | RespCount _ => true
  | RespRows [] => true
  | RespRows (_ :: _) => false
  end.

(** The payload of an event between the model and the options. *)
Inductive TData : Type :=
| DAttrs (a : attrs)
| DResp (r : Resp).

(** [this.triggerThen(event, this, [data,] options)]. [t_options] is the
    address of the options object, [t_seen] its content when the handlers
    are called. *)
Record Trigger : Type := {
  t_event : string;
  t_table : string;
  t_attributes : attrs;
  t_data : option TData;
  t_options : loc;
  t_seen : object
}.

(** [this.query()[.transacting(trx)].update(attrs, returning).where(w)] *)
Record Update : Type := {
  u_table : string;
  u_transacting : option optval;
  u_attrs : attrs;
  u_returning : string;
  u_where : list (string * jsval)
}.

(** [relation.fetch(options)], for the relation [f_relation] of the model
    of table [f_table] with attributes [f_owner]. *)
Record Fetch : Type := {
  f_table : string;
  f_owner : attrs;
  f_relation : string;
  f_options : option loc
}.

(** [modelPrototype.destroy.call(this, options)] *)
Record OriginalDestroy : Type := {
  od_table : string;
  od_this : Instance;
  od_options : loc;
  od_seen : object
}.

(** What the plugin does to its host, in the order it does it. *)
Inductive Effect : Type :=
| ETrigger (t : Trigger)
| EUpdate (u : Update)
| ERelation (table name : string)
| EFetch (f : Fetch)
| EOriginalDestroy (d : OriginalDestroy).

(** The heap of options objects and the trace of effects. *)
Record World : Type := {
  heap : list object;
  trace : list Effect
}.

Definition log (e : Effect) (w : World) : World :=
  {| heap := heap w; trace := trace w ++ [e] |}.

Definition deref (w : World) (l : loc) : object :=
  default ∅ (heap w !! l).

Definition store (l : loc) (o : object) (w : World) : World :=
  {| heap := <[l := o]> (heap w); trace := trace w |}.

(** A new object literal. *)
Definition alloc (o : object) (w : World) : loc * World :=
  (length (heap w), {| heap := heap w ++ [o]; trace := trace w |}).

(** An asynchronous computation: it runs on the world and resolves or
    rejects. *)
Abbreviation Async A := (World → result A * World).

(** [Promise.all]: every promise of the array is already running when the
    array is built, so each one runs to its end also when another one
    rejects; the result is the first rejection.  Sibling promises are
    taken in the order of the array; other interleavings of their effects
    are not modelled. *)
Definition first_error (r rs : result unit) : result unit :=
  match r with
  | Err e => Err e
  | Ok _ => rs
  end.

Fixpoint all (ps : list (Async unit)) (w : World) : result unit * World :=
  match ps with
  | [] => (Ok tt, w)
  | p :: rest =>
      let '(r, w1) := p w in
      let '(rs, w2) := all rest w1 in
      (first_error r rs, w2)
  end.

(** *** bookshelf's base model, as far as [destroy] uses it *)

(** [this.get(attr)] *)
Definition Model_get (this : Instance) (attr : string) : jsval :=
  default JUndefined (attributes this !! attr).

(** [this.set(attrs)]: assigns every attribute and records the ones that
    differ from the previous attributes as changed. *)
Definition Model_set (a : attrs) (this : Instance) : Instance :=
  {| attributes := a ∪ attributes this;
     _previousAttributes := _previousAttributes this;
     changed :=
       filter (λ kv, default JUndefined (_previousAttributes this !! kv.1)
                     ≠ kv.2) a
       ∪ (changed this ∖ a) |}.

(** [this._reset()] *)
Definition Model_reset (this : Instance) : Instance :=
  {| attributes := attributes this;
     _previousAttributes := attributes this;
     changed := ∅ |}.

(** A model as a fetch builds it from a row. *)
Definition fetched (row : attrs) : Instance :=
  {| attributes := row; _previousAttributes := row; changed := ∅ |}.

(** What [destroy] returns: how its promise settled, the state of [this]
    and the world. *)
Abbreviation Outcome := (result unit * Instance * World)%type.

(** A relation object, as [this[dependent]()] returns it: its
    [relatedData], the [softDelete] flag of the target's prototype and
    the [destroy] method of the models it fetches. *)
Record Relation : Type := {
  rel_data : RelatedData;
  rel_target_softDelete : jsval;
  rel_destroy : Instance → option loc → World → Outcome
}.

(** ** destroy *)

Section Destroy.

Variable settings : Settings.

(** The host: the clock behind [new Date()], the handlers the application
    registered ([None]: they all resolve; they are taken to observe the
    model and the options, not to change them), the database behind knex,
    the rows the relations fetch, and bookshelf's own [destroy]. *)
Variable now : Z.
Variable handlers : Trigger → option Error.
Variable run_update : Update → result Resp.
Variable run_fetch : Fetch → result (list attrs).
Variable original_destroy : OriginalDestroy → result unit * Instance.

(** [this.triggerThen(event, this, [data,] options)] *)
Definition trigger_record (cls : Class) (this : Instance) (options : loc)
    (seen : object) (event : string * option TData) : Trigger :=
  {| t_event := event.1; t_table := tableName cls;
     t_attributes := attributes this; t_data := event.2;
     t_options := options; t_seen := seen |}.

Definition triggerThen (cls : Class) (this : Instance) (options : loc)
    (event : string * option TData) : Async unit :=
  λ w,
    let t := trigger_record cls this options (deref w options) event in
    (match handlers t with Some e => Err e | None => Ok tt end,
     log (ETrigger t) w).

(** The keys [destroy] merges into its options. *)
Definition softDelete_options : object :=
  {[ "method" := OVal (JStr "update");
     "patch" := OVal (JBool true);
     "softDelete" := OVal (JBool true) ]}.

(** [attrs]: the marker set to the current date, the sentinel nulled
    when one is configured, formatted by the model. *)
Definition marker_attrs (cls : Class) : attrs :=
  let attrs : attrs := {[ field settings := JDate now ]} in
  let attrs :=
    match sentinel_set settings with
    | Some s => <[ s := JNull ]> attrs
    | None => attrs
    end in
  format cls attrs.

(** First [then]: the pre-update events.  [pre_event_list] is the array
    [events] of the source, each entry an event with the data it carries
    between the model and the options. *)
Definition pre_event_list (ev : EventsCfg) (attrs : attrs)
  : list (string * option TData) :=
  (if ev_destroying ev then [("destroying", None)] else [])
  ++ (if ev_saving ev then [("saving", Some (DAttrs attrs))] else [])
  ++ (if ev_updating ev then [("updating", Some (DAttrs attrs))] else []).

Definition pre_events (cls : Class) (this : Instance) (attrs : attrs)
    (options : loc) : Async unit :=
  match events settings with
  | None => λ w, (Ok tt, w)
  | Some ev =>
      all (map (triggerThen cls this options) (pre_event_list ev attrs))
  end.

(** [options.transacting], when the caller gave a transaction. *)
Definition transacting_of (options : object) : option optval :=
  if truthy_opt (prop options "transacting")
  then Some (prop options "transacting") else None.

(** Second [then]: the update. *)
Definition update_stmt (cls : Class) (this : Instance) (attrs : attrs)
    (options : object) : Update :=
  {| u_table := tableName cls;
     u_transacting := transacting_of options;
     u_attrs := attrs;
     u_returning := idAttribute cls;
     u_where := [("id", Model_get this (idAttribute cls))] |}.

Definition write (cls : Class) (this : Instance) (attrs : attrs)
    (options : loc) : Async Resp :=
  λ w,
    let u := update_stmt cls this attrs (deref w options) in
    (run_update u, log (EUpdate u) w).

(** Third [then]: the check of the response, the update of the model in
    memory and the post-update events. *)
Definition post_event_list (ev : EventsCfg) (resp : Resp)
  : list (string * option TData) :=
  (if ev_destroyed ev then [("destroyed", None)] else [])
  ++ (if ev_saved ev then [("saved", Some (DResp resp))] else [])
  ++ (if ev_updated ev then [("updated", Some (DResp resp))] else []).

Definition post_events (cls : Class) (this : Instance) (resp : Resp)
    (options : loc) (ev : EventsCfg) : Async unit :=
  all (map (triggerThen cls this options) (post_event_list ev resp)).

Definition after_write (cls : Class) (this : Instance) (attrs : attrs)
    (options : loc) (resp : Resp) (w : World) : Outcome :=
  if isEmpty resp && truthy_opt (prop (deref w options) "require")
  then (Err (NoRowsDeletedError "No Rows Deleted"), this, w)
  else
    match events settings with
    | None => (Ok tt, this, w)
    | Some ev =>
        let this1 := Model_set attrs this in
        let w1 :=
          store options
            (<[ "previousAttributes" := OObj (_previousAttributes this1) ]>
               (deref w options)) w in
        let this2 := Model_reset this1 in
        let '(r, w2) := post_events cls this2 resp options ev w1 in
        (r, this2, w2)
    end.

(** Fourth [then]: the cascade. *)

(** The promise of a [destroy], without the model it resolves to. *)
Definition settled (out : Outcome) : result unit * World :=
  (out.1.1, out.2).

(** [relation.fetch().then(...)]: a model relation resolves to its first
    row, or to [null] when there is none, and the model is destroyed; a
    collection relation resolves to a collection, and [invokeThen] calls
    [destroy] on each of its models with the one [destOps]. *)
Definition destroy_fetched (rel : Relation) (f : Fetch) (destOps : loc)
  : Async unit :=
  λ w,
    match run_fetch f with
    | Err e => (Err e, w)
    | Ok rows =>
        if rd_is_model (rel_data rel) then
          match rows with
          | [] => (Ok tt, w)
          | row :: _ =>
              settled (rel_destroy rel (fetched row) (Some destOps) w)
          end
        else
          all (map (λ row w0,
                      settled (rel_destroy rel (fetched row) (Some destOps) w0))
                 rows) w
    end.

(** [alsoSoftDelete === true && relationType !== 'belongsToMany'] *)
Definition cascades (relation : Relation) : bool :=
  is_true (rel_target_softDelete relation)
  && negb (String.eqb (rd_type (rel_data relation)) "belongsToMany").

(** [relation.fetch()], called without options. *)
Definition fetch_call (cls : Class) (this : Instance) (dependent : string)
  : Fetch :=
  {| f_table := tableName cls; f_owner := attributes this;
     f_relation := dependent; f_options := None |}.

(** [destOps]: [{transacting: options.transacting}] when the options
    carry a transaction, [{}] otherwise. *)
Definition destOps_of (options : object) : object :=
  match transacting_of options with
  | Some trx => {[ "transacting" := trx ]}
  | None => ∅
  end.

(** The loop over [this.dependents] is synchronous: it calls the relation
    method, builds [destOps], calls [fetch] and pushes the promise that
    waits for the fetch and destroys what it returned.  A dependent that
    names no method throws out of the loop; the promises pushed before it
    go on running. *)
Fixpoint each_dependent (cls : Class) (methods : list (string * Relation))
    (this : Instance) (options : loc) (deps : list string) (w : World)
  : option Error * list (Async unit) * World :=
  match deps with
  | [] => (None, [], w)
  | dependent :: rest =>
      match list_to_map (M := gmap string Relation) methods !! dependent with
      | None =>
          (Some (TypeError "this[dependent] is not a function"), [], w)
      | Some relation =>
          let w1 := log (ERelation (tableName cls) dependent) w in
          let '(destOps, w2) := alloc (destOps_of (deref w1 options)) w1 in
          if cascades relation then
            let f := fetch_call cls this dependent in
            let w3 := log (EFetch f) w2 in
            let '(thrown, promises, w4) :=
              each_dependent cls methods this options rest w3 in
            (thrown, destroy_fetched relation f destOps :: promises, w4)
          else each_dependent cls methods this options rest w2
      end
  end.

Definition cascade (cls : Class) (methods : list (string * Relation))
    (this : Instance) (options : loc) : Async unit :=
  λ w,
    match dependents cls with
    | None | Some [] => (Ok tt, w)
    | Some deps =>
        let '(thrown, promises, w1) :=
          each_dependent cls methods this options deps w in
        let '(r, w2) := all promises w1 in
        (match thrown with Some e => Err e | None => r end, w2)
    end.

(** [options = options || {}]; [None] is a call without options. *)
Definition options_or_empty (options : option loc) (w : World) : loc * World :=
  match options with
  | Some l => (l, w)
  | None => alloc ∅ w
  end.

(** [destroy(options)] of a model of class [cls] whose relation methods
    are [methods]. *)
Definition destroy_with (cls : Class) (methods : list (string * Relation))
    (this : Instance) (options : option loc) (w : World) : Outcome :=
  let '(options, w) := options_or_empty options w in
  if is_true (softDelete cls)
     && negb (is_true_opt (prop (deref w options) "hardDelete"))
  then
    let w := store options
               (merge is_undefined_opt (deref w options) softDelete_options) w in
    let attrs := marker_attrs cls in
    match pre_events cls this attrs options w with
    | (Err e, w) => (Err e, this, w)
    | (Ok _, w) =>
    match write cls this attrs options w with
    | (Err e, w) => (Err e, this, w)
    | (Ok resp, w) =>
    match after_write cls this attrs options resp w with
    | (Err e, this, w) => (Err e, this, w)
    | (Ok _, this, w) =>
    match cascade cls methods this options w with
    | (Err e, w) => (Err e, this, w)
    | (Ok _, w) => (Ok tt, this, w)
    end end end end
  else
    let d := {| od_table := tableName cls; od_this := this;
                od_options := options; od_seen := deref w options |} in
    let '(r, this) := original_destroy d in
    (r, this, log (EOriginalDestroy d) w).

(** The relation methods of a class: every fetched model is an instance
    of the relation's target and has the target's [destroy]. *)
Definition relation_method
    (destroy : Proto → Instance → option loc → World → Outcome)
    (nr : string * (RelatedData * Proto)) : string * Relation :=
  match nr with
  | (name, (rd, target)) =>
      (name,
       {| rel_data := rd;
          rel_target_softDelete := softDelete (proto_class target);
          rel_destroy := destroy target |})
  end.

Fixpoint destroy (p : Proto) : Instance → option loc → World → Outcome :=
  match p with
  | MkProto cls relations =>
      destroy_with cls (map (relation_method destroy) relations)
  end.

End Destroy.

(** ** The settings the plugin is installed with *)

(** The [events] option as the caller writes it: a value that is not a
    plain object ([false] to disable the hooks as a whole), or an object
    of flags. *)
Inductive EventsArg : Type :=
| EventsValue (v : jsval)
| EventsObject (flags : attrs).

(** The [settings] argument of the plugin; an absent key is [None], and
    [us_sentinel = Some None] is an explicit [null]. *)
Record UserSettings : Type := {
  us_field : option string;
  us_sentinel : option (option string);
  us_events : option EventsArg
}.

(** The [events] object of the default settings. *)
Definition default_flags : attrs :=
  {[ "destroying" := JBool true; "updating" := JBool false;
     "saving" := JBool false; "destroyed" := JBool true;
     "updated" := JBool false; "saved" := JBool false ]}.

(** How [destroy] reads the flags: [if (settings.events.destroying)]. *)
Definition flags_cfg (flags : attrs) : EventsCfg :=
  let flag name := truthy (default JUndefined (flags !! name)) in
  {| ev_destroying := flag "destroying"; ev_updating := flag "updating";
     ev_saving := flag "saving"; ev_destroyed := flag "destroyed";
     ev_updated := flag "updated"; ev_saved := flag "saved" |}.

(** [merge] on the key [events]: an [undefined] source leaves the default
    object, an object of flags is merged into it flag by flag, any other
    value replaces it (and has no flags to read). *)
Definition merge_events (arg : option EventsArg) : option EventsCfg :=
  match arg with
  | None | Some (EventsValue JUndefined) => Some (flags_cfg default_flags)
  | Some (EventsValue v) => if truthy v then Some (flags_cfg ∅) else None
  | Some (EventsObject flags) =>
      Some (flags_cfg (merge is_undefined default_flags flags))
  end.

(** [settings = merge({field: 'deleted_at', sentinel: null, events: {...}},
    settings)]; [None] is a plugin installed without settings. *)
Definition plugin_settings (settings : option UserSettings) : Settings :=
  match settings with
  | None =>
      {| field := "deleted_at"; sentinel := None;
         events := merge_events None |}
  | Some u =>
      {| field := default "deleted_at" (us_field u);
         sentinel := default None (us_sentinel u);
         events := merge_events (us_events u) |}
  end.

(** * Vocabulary of the statements and fixtures *)

(** The three ways out of [skipDeleted] without a predicate: the negation
    of its two guards. *)
Definition filter_skipped (this : Receiver) (options : object) : Prop :=
  prop options "withDeleted" = OVal (JBool true)
  ∨ softDelete_of this ≠ JBool true
  ∨ (truthy_opt (prop options "isEager") = true
     ∧ truthy_opt (prop options "parentResponse") = false).

#[global] Instance filter_skipped_dec this options :
  Decision (filter_skipped this options).
Proof. unfold filter_skipped. apply _. Defined.


(** How the handlers of a list of emitted events settle together under
    [Promise.all]: the first rejection, if any. *)
Fixpoint settle (handlers : Trigger → option Error) (ts : list Trigger)
  : result unit :=
  match ts with
  | [] => Ok tt
  | t :: rest =>
      match handlers t with
      | Some e => Err e
      | None => settle handlers rest
      end
  end.

(** The pre-update events that the settings enable. *)
Definition enabled_pre_events (settings : Settings) (attrs : attrs)
  : list (string * option TData) :=
  match events settings with
  | Some ev => pre_event_list ev attrs
  | None => []
  end.

Definition pre_event_enabled (settings : Settings) (event : string) : bool :=
  match events settings with
  | None => false
  | Some ev =>
      if String.eqb event "destroying" then ev_destroying ev
      else if String.eqb event "saving" then ev_saving ev
      else if String.eqb event "updating" then ev_updating ev
      else false
  end.

(** What a destroy that runs in the transaction [trx] may do: its updates
    join [trx] (or none, when there is none), its fetches are called
    without options, and it emits events only when the settings have
    some. *)
Definition effect_ok (settings : Settings) (trx : option optval) (e : Effect)
  : Prop :=
  match e with
  | EUpdate u => u_transacting u = trx
  | EFetch f => f_options f = None
  | ETrigger _ => events settings ≠ None
  | ERelation _ _ | EOriginalDestroy _ => True
  end.

(** From [w] to [w']: the trace grows by effects that are [effect_ok],
    the heap grows, the objects below [n] are untouched and no object
    changes its transaction. *)
Record step (settings : Settings) (trx : option optval) (n : nat)
    (w w' : World) : Prop := {
  step_trace :
    ∃ tr, trace w' = trace w ++ tr ∧ Forall (effect_ok settings trx) tr;
  step_length : length (heap w) ≤ length (heap w');
  step_frame : ∀ j, j < n → heap w' !! j = heap w !! j;
  step_transacting :
    ∀ j, j < length (heap w) →
         transacting_of (deref w' j) = transacting_of (deref w j)
}.

Definition options_content (w : World) (options : option loc) : object :=
  match options with
  | Some l => deref w l
  | None => ∅
  end.

(** A [destroy] method is well behaved when every call on options that
    exist, at an address from [n] on, is such a step. *)
Definition well_behaved (settings : Settings)
    (d : Instance → option loc → World → Outcome) : Prop :=
  ∀ this options w n,
    (∀ k, options = Some k → n ≤ k < length (heap w)) →
    n ≤ length (heap w) →
    step settings (transacting_of (options_content w options)) n w
      (d this options w).2.

(** A promise of the cascade: it destroys what a relation fetched, with
    options of its own at an address from [n] on that carry [trx]. *)
Definition cascade_promise (run_fetch : Fetch → result (list attrs))
    (methods : list (string * Relation)) (trx : option optval) (n : nat)
    (w : World) (promise : Async unit) : Prop :=
  ∃ name rel f k,
    (name, rel) ∈ methods
    ∧ promise = destroy_fetched run_fetch rel f k
    ∧ n ≤ k < length (heap w)
    ∧ transacting_of (deref w k) = trx.

(** What the loop of the cascade does for one dependent: it resolves the
    relation and, unless the relation is skipped, calls its [fetch]. *)
Definition visit (cls : Class) (methods : list (string * Relation))
    (this : Instance) (dependent : string) : list Effect :=
  ERelation (tableName cls) dependent
  :: match list_to_map (M := gmap string Relation) methods !! dependent with
     | Some relation =>
         if cascades relation
         then [EFetch (fetch_call cls this dependent)] else []
     | None => []
     end.

(** The promises the loop pushes when the [destOps] of its dependents
    are allocated from address [k] on: one for each relation that is not
    skipped, destroying what the relation fetched with the [destOps] of
    that dependent. *)
Fixpoint pushed (run_fetch : Fetch → result (list attrs)) (cls : Class)
    (methods : list (string * Relation)) (this : Instance) (k : loc)
    (deps : list string) : list (Async unit) :=
  match deps with
  | [] => []
  | dependent :: rest =>
      match list_to_map (M := gmap string Relation) methods !! dependent with
      | Some relation =>
          if cascades relation
          then destroy_fetched run_fetch relation
                 (fetch_call cls this dependent) k
               :: pushed run_fetch cls methods this (S k) rest
          else pushed run_fetch cls methods this (S k) rest
      | None => []
      end
  end.

(** The updates of a trace, by table and transaction, and its fetches. *)
Definition updates (tr : list Effect) : list (string * option optval) :=
  omap (λ e, match e with
             | EUpdate u => Some (u_table u, u_transacting u)
             | _ => None
             end) tr.

Definition fetches (tr : list Effect) : list Fetch :=
  omap (λ e, match e with EFetch f => Some f | _ => None end) tr.

(** ** Fixtures: the models and hosts the examples run on *)

Module Fixtures.

Definition orders : Receiver :=
  {| recv_model := None; recv_softDelete := JBool true;
     recv_tableName := "orders" |}.

Definition with_sentinel : Settings :=
  {| field := "deleted_at"; sentinel := Some "active";
     events := Some default_events |}.




Definition soft_class (table idAttr : string) (deps : option (list string))
  : Class :=
  {| softDelete := JBool true; tableName := table; idAttribute := idAttr;
     dependents := deps; format := λ a, a |}.

(** Items belong to an order; an order owns its items. *)
Definition items : Proto := MkProto (soft_class "items" "id" None) [].

Definition orders_proto : Proto :=
  MkProto (soft_class "orders" "id" (Some ["items"]))
    [("items", ({| rd_type := "hasMany"; rd_is_model := false |}, items))].

(** A model identified by a column that is not called [id]. *)
Definition accounts : Proto := MkProto (soft_class "accounts" "uuid" None) [].

(** A model that is not soft-deletable. *)
Definition logs : Proto :=
  MkProto {| softDelete := JUndefined; tableName := "logs";
             idAttribute := "id"; dependents := None; format := λ a, a |} [].

Definition order42 : Instance := fetched {[ "id" := JNum 42 ]}.
Definition account_a1 : Instance :=
  fetched {[ "uuid" := JStr "a1"; "name" := JStr "Ann" ]}.

(** Hosts. *)
Definition quiet : Trigger → option Error := λ _, None.
Definition veto (event : string) : Trigger → option Error :=
  λ t, if String.eqb (t_event t) event
       then Some (HostError "handler rejected") else None.
Definition one_row_counted : Update → result Resp := λ _, Ok (RespCount 1).
Definition one_row_returned : Update → result Resp :=
  λ _, Ok (RespRows [JNum 42]).
Definition no_row_returned : Update → result Resp := λ _, Ok (RespRows []).
Definition nothing_fetched : Fetch → result (list attrs) := λ _, Ok [].
Definition two_items : Fetch → result (list attrs) :=
  λ _, Ok [ {[ "id" := JNum 7 ]}; {[ "id" := JNum 8 ]} ].
Definition bookshelf_destroy : OriginalDestroy → result unit * Instance :=
  λ d, (Ok tt, od_this d).

(** Worlds: one options object at address 0, nothing done yet. *)
Definition world_of (options : object) : World :=
  {| heap := [options]; trace := [] |}.

Definition no_events : Settings :=
  {| field := "deleted_at"; sentinel := None; events := None |}.

End Fixtures.


(** ** The cascade, in the words of its specification *)

(** A relation the cascade skips: a many-to-many relation, or a relation
    whose target is not soft-deletable. *)
Definition skipped (rel : Relation) : bool :=
  bool_decide (rd_type (rel_data rel) = "belongsToMany")
  || negb (bool_decide (rel_target_softDelete rel = JBool true)).

(** The transaction context of options: the value of [transacting] when
    it is there and truthy. *)
Definition expected_transaction (options : object) : option optval :=
  match options !! "transacting" with
  | Some trx => if truthy_opt trx then Some trx else None
  | None => None
  end.

(** The options a cascaded destroy is given: the transaction context and
    nothing else. *)
Definition expected_destOps (options : object) : object :=
  match expected_transaction options with
  | Some trx => {[ "transacting" := trx ]}
  | None => ∅
  end.

(** The fetch of the relation [dependent] of a model: it is given no
    options. *)
Definition expected_fetch (table : string) (owner : attrs)
    (dependent : string) : Fetch :=
  {| f_table := table; f_owner := owner; f_relation := dependent;
     f_options := None |}.

(** Visiting a dependent: the relation is resolved and, unless it is
    skipped, fetched. *)
Definition expected_visit (table : string) (owner : attrs)
    (methods : list (string * Relation)) (dependent : string) : list Effect :=
  match list_to_map (M := gmap string Relation) methods !! dependent with
  | Some rel =>
      if skipped rel
      then [ERelation table dependent]
      else [ERelation table dependent;
            EFetch (expected_fetch table owner dependent)]
  | None => [ERelation table dependent]
  end.

(** The promises of a cascade whose dependents get their options at the
    addresses from [k] on, one address for each dependent: for each
    relation that is not skipped, what it fetched is destroyed with the
    options of that dependent. *)
Fixpoint expected_promises (run_fetch : Fetch → result (list attrs))
    (table : string) (owner : attrs) (methods : list (string * Relation))
    (k : loc) (deps : list string) : list (Async unit) :=
  match deps with
  | [] => []
  | dependent :: rest =>
      let later :=
        expected_promises run_fetch table owner methods (S k) rest in
      match list_to_map (M := gmap string Relation) methods !! dependent with
      | Some rel =>
          if skipped rel then later
          else destroy_fetched run_fetch rel
                 (expected_fetch table owner dependent) k :: later
      | None => later
      end
  end.

Module CascadeFixtures.

Definition tags : Proto := MkProto (Fixtures.soft_class "tags" "id" None) [].

(** An order with items it owns (cascaded), tags it shares through a
    join table (skipped) and logs that are not soft-deletable
    (skipped). *)
Definition shop_orders : Proto :=
  MkProto
    (Fixtures.soft_class "orders" "id" (Some ["items"; "tags"; "logs"]))
    [("items", ({| rd_type := "hasMany"; rd_is_model := false |},
                Fixtures.items));
     ("tags", ({| rd_type := "belongsToMany"; rd_is_model := false |}, tags));
     ("logs", ({| rd_type := "hasMany"; rd_is_model := false |},
               Fixtures.logs))].

Definition in_transaction : object := {[ "transacting" := OVal (JHost 1) ]}.

End CascadeFixtures.

(** ** Vocabulary of the further properties *)

(** The flag of an event in the settings. *)
Definition event_flag (ev : EventsCfg) (event : string) : bool :=
  if String.eqb event "destroying" then ev_destroying ev
  else if String.eqb event "updating" then ev_updating ev
  else if String.eqb event "saving" then ev_saving ev
  else if String.eqb event "destroyed" then ev_destroyed ev
  else if String.eqb event "updated" then ev_updated ev
  else if String.eqb event "saved" then ev_saved ev
  else false.

Definition event_names : list string :=
  ["destroying"; "updating"; "saving"; "destroyed"; "updated"; "saved"].

(** The delegated call to bookshelf's own [destroy]. *)
Definition is_original (e : Effect) : Prop :=
  match e with
  | EOriginalDestroy _ => True
  | _ => False
  end.

(** From [w] to [w'] without a physical delete: the trace grows by
    effects other than the delegated call, the heap grows, the objects
    below [n] other than [x] are untouched and no object changes its
    [hardDelete]. *)
Record soft_step (n : nat) (x : option loc) (w w' : World) : Prop := {
  soft_trace :
    ∃ tr, trace w' = trace w ++ tr ∧ Forall (λ e, ¬ is_original e) tr;
  soft_length : length (heap w) ≤ length (heap w');
  soft_frame : ∀ j, j < n → x ≠ Some j → heap w' !! j = heap w !! j;
  soft_hard :
    ∀ j, j < length (heap w) →
         prop (deref w' j) "hardDelete" = prop (deref w j) "hardDelete"
}.

(** A [destroy] method that stays soft when its options do not ask for a
    hard delete. *)
Definition soft_destroy (d : Instance → option loc → World → Outcome) : Prop :=
  ∀ this l w,
    l < length (heap w) →
    prop (deref w l) "hardDelete" ≠ OVal (JBool true) →
    soft_step (length (heap w)) (Some l) w (d this (Some l) w).2.

Definition soft_relation (rel : Relation) : Prop :=
  cascades rel = true → soft_destroy (rel_destroy rel).

(** A promise of the cascade whose options, at an address from [n] on,
    do not ask for a hard delete. *)
Definition soft_promise (run_fetch : Fetch → result (list attrs))
    (methods : list (string * Relation)) (n : nat) (w : World)
    (promise : Async unit) : Prop :=
  ∃ name rel f k,
    (name, rel) ∈ methods
    ∧ cascades rel = true
    ∧ promise = destroy_fetched run_fetch rel f k
    ∧ n ≤ k < length (heap w)
    ∧ prop (deref w k) "hardDelete" ≠ OVal (JBool true).

(** ** Further fixtures *)

Module MoreFixtures.

(** An order whose [dependents] name a relation it does not have. *)
Definition orders_with_typo : Proto :=
  MkProto (Fixtures.soft_class "orders" "id" (Some ["items"; "notes"]))
    [("items", ({| rd_type := "hasMany"; rd_is_model := false |},
                Fixtures.items))].

(** A database that refuses the update. *)
Definition update_fails : Update → result Resp :=
  λ _, Err (HostError "connection lost").

(** Settings given by a caller: a sentinel and one more event. *)
Definition with_saved : UserSettings :=
  {| us_field := None; us_sentinel := Some (Some "active");
     us_events := Some (EventsObject {[ "saved" := JBool true ]}) |}.

End MoreFixtures.
(** * Verification *)

(** ** Strict comparisons *)

Lemma is_true_spec (v : jsval) : is_true v = true ↔ v = JBool true.
Proof. destruct v as [| |[]| | | |]; simpl; split; congruence. Qed.

Lemma is_true_opt_spec (v : optval) :
  is_true_opt v = true ↔ v = OVal (JBool true).
Proof.
  destruct v as [p| |]; simpl; [|split; congruence..].
  rewrite is_true_spec. split; congruence.
Qed.

Lemma is_true_false (v : jsval) : is_true v = false ↔ v ≠ JBool true.
Proof. rewrite <- is_true_spec. destruct (is_true v); split; congruence. Qed.

Lemma is_true_opt_false (v : optval) :
  is_true_opt v = false ↔ v ≠ OVal (JBool true).
Proof.
  rewrite <- is_true_opt_spec. destruct (is_true_opt v); split; congruence.
Qed.

(** ** Read filter *)

Section ReadFilterFacts.

Variable settings : Settings.





Lemma whereNull_changes (column : string) (q : Query) :
  whereNull column q ≠ q.
Proof.
  unfold whereNull. intros H. apply (f_equal length) in H.
  rewrite length_app in H. simpl in H. lia.
Qed.

Lemma skipDeleted_skipped (this : Receiver) (options : object) (q : Query) :
  filter_skipped this options → skipDeleted settings this options q = q.
Proof.
  unfold skipDeleted. intros [H | [H | [H1 H2]]].
  - apply is_true_opt_spec in H. rewrite H, andb_false_r.
    by destruct (_ || _).
  - apply is_true_false in H. rewrite H. by destruct (_ || _).
  - by rewrite H1, H2.
Qed.





End ReadFilterFacts.





(** ** Model initialisation *)

Section InitializeFacts.

Variable settings : Settings.

(** C9, as the code has it: on a soft-deletable type with a sentinel
    configured, [initialize] extends the defaults by the sentinel set to
    [true], unless the type's own defaults already give the sentinel a
    value other than [undefined], which is kept; every other default is
    kept; a type that is not soft-deletable, or settings without a
    sentinel, leave the defaults as they are. *)
Theorem initialize_sentinel_default (softDelete : jsval)
    (defaults : option attrs) :
  (∀ s, softDelete = JBool true → sentinel_set settings = Some s →
     ∃ d, Model_initialize settings softDelete defaults = Some d
          ∧ d !! s = Some (match default ∅ defaults !! s with
                           | Some v => if is_undefined v then JBool true else v
                           | None => JBool true
                           end)
          ∧ ∀ k, k ≠ s → d !! k = default ∅ defaults !! k)
  ∧ (softDelete ≠ JBool true ∨ sentinel_set settings = None →
     Model_initialize settings softDelete defaults = defaults).
Proof.
  unfold Model_initialize. split.
  - intros s -> ->. simpl. eexists. split; [reflexivity|].
    unfold merge. split.
    + rewrite lookup_union_with, lookup_singleton_eq.
      by destruct (default ∅ defaults !! s).
    + intros k Hk. rewrite lookup_union_with, lookup_singleton_ne by done.
      by destruct (default ∅ defaults !! k).
  - intros [H | ->]; [|done].
    apply is_true_false in H. rewrite H. by destruct (sentinel_set settings).
Qed.

End InitializeFacts.

Lemma initialize_sentinel_default_witness :
  (∃ d, Model_initialize Fixtures.with_sentinel (JBool true) None = Some d
        ∧ d !! "active" = Some (JBool true)
        ∧ ∀ k, k ≠ "active" → d !! k = None)
  ∧ Model_initialize default_settings (JBool true)
      (Some {[ "status" := JStr "new" ]})
    = Some {[ "status" := JStr "new" ]}.
Proof.
  split.
  - apply (proj1 (initialize_sentinel_default Fixtures.with_sentinel
                    (JBool true) None) "active"); reflexivity.
  - apply (proj2 (initialize_sentinel_default default_settings (JBool true)
                    (Some {[ "status" := JStr "new" ]}))).
    right. reflexivity.
Defined.

(** C9 as stated fails: a soft-deletable type whose own defaults set the
    sentinel to [false] keeps [false] as the sentinel's default. *)
Lemma initialize_keeps_own_sentinel_default :
  sentinel_set Fixtures.with_sentinel = Some "active"
  ∧ ∃ d, Model_initialize Fixtures.with_sentinel (JBool true)
           (Some {[ "active" := JBool false ]}) = Some d
         ∧ d !! "active" = Some (JBool false)
         ∧ d !! "active" ≠ Some (JBool true).
Proof.
  split; [reflexivity|]. eexists. split; [reflexivity|].
  vm_compute. split; [reflexivity | discriminate].
Qed.


(** ** The world: heap and trace *)

Lemma world_eta (w : World) : {| heap := heap w; trace := trace w |} = w.
Proof. by destruct w. Qed.

Lemma deref_log (e : Effect) (w : World) (l : loc) :
  deref (log e w) l = deref w l.
Proof. reflexivity. Qed.

Lemma deref_store (l : loc) (o : object) (w : World) :
  l < length (heap w) → deref (store l o w) l = o.
Proof.
  intros H. unfold deref, store. simpl.
  by rewrite list_lookup_insert_eq.
Qed.

Lemma deref_lookup (w : World) (l : loc) (o : object) :
  heap w !! l = Some o → deref w l = o.
Proof. unfold deref. by intros ->. Qed.

Lemma options_or_empty_valid (options : option loc) (w w0 : World) (l : loc) :
  options_or_empty options w = (l, w0) →
  (∀ k, options = Some k → k < length (heap w)) →
  l < length (heap w0) ∧ trace w0 = trace w.
Proof.
  destruct options as [k|]; simpl; intros [= <- <-] Hk.
  - split; [by apply Hk | done].
  - simpl. rewrite length_app. simpl. split; [lia | done].
Qed.

(** ** destroy: the two branches *)

Section DestroyFacts.

Variable settings : Settings.
Variable now : Z.
Variable handlers : Trigger → option Error.
Variable run_update : Update → result Resp.
Variable run_fetch : Fetch → result (list attrs).
Variable original_destroy : OriginalDestroy → result unit * Instance.

Local Abbreviation destroy_with' :=
  (destroy_with settings now handlers run_update run_fetch original_destroy).
Local Abbreviation destroy' :=
  (destroy settings now handlers run_update run_fetch original_destroy).
Local Abbreviation cascade' := (cascade run_fetch).
Local Abbreviation after_write' := (after_write settings handlers).
Local Abbreviation pre_events' := (pre_events settings handlers).

Lemma destroy_unfold (p : Proto) :
  destroy' p
  = destroy_with' (proto_class p)
      (map (relation_method destroy') (proto_relations p)).
Proof. by destruct p. Qed.

Lemma settle_ok (ts : list Trigger) :
  settle handlers ts = Ok tt ↔ ∀ t, t ∈ ts → handlers t = None.
Proof.
  induction ts as [|t ts IH]; simpl.
  - split; [|done]. intros _ t Ht. by apply elem_of_nil in Ht.
  - destruct (handlers t) eqn:Ht.
    + split; [done|]. intros H. specialize (H t (list_elem_of_here _ _)).
      congruence.
    + rewrite IH. split.
      * intros H t' [->|Ht']%elem_of_cons; auto.
      * intros H t' Ht'. apply H. by apply list_elem_of_further.
Qed.

Lemma settle_err (ts : list Trigger) (e : Error) :
  settle handlers ts = Err e → ∃ t, t ∈ ts ∧ handlers t = Some e.
Proof.
  induction ts as [|t ts IH]; simpl; [done|].
  destruct (handlers t) as [e'|] eqn:Ht.
  - intros [= ->]. exists t. split; [apply list_elem_of_here | done].
  - intros [t' [? ?]]%IH. exists t'. split; [by apply list_elem_of_further|done].
Qed.

(** Emitting a list of events: every handler is called with the options
    as they are now, the heap stays as it is. *)
Lemma all_triggerThen (cls : Class) (this : Instance) (l : loc)
    (evs : list (string * option TData)) (w : World) :
  all (map (triggerThen handlers cls this l) evs) w
  = (settle handlers (map (trigger_record cls this l (deref w l)) evs),
     {| heap := heap w;
        trace := trace w
                 ++ map ETrigger
                      (map (trigger_record cls this l (deref w l)) evs) |}).
Proof.
  revert w. induction evs as [|ev evs IH]; intros w; simpl.
  - by rewrite app_nil_r, world_eta.
  - unfold triggerThen at 1. rewrite IH. simpl. rewrite deref_log.
    rewrite <- app_assoc. simpl.
    by destruct (handlers _).
Qed.

Lemma pre_events_eq (cls : Class) (this : Instance) (attrs : attrs) (l : loc)
    (w : World) :
  pre_events' cls this attrs l w
  = (settle handlers
       (map (trigger_record cls this l (deref w l))
            (enabled_pre_events settings attrs)),
     {| heap := heap w;
        trace := trace w
                 ++ map ETrigger
                      (map (trigger_record cls this l (deref w l))
                           (enabled_pre_events settings attrs)) |}).
Proof.
  unfold pre_events, enabled_pre_events. destruct (events settings).
  - apply all_triggerThen.
  - simpl. by rewrite app_nil_r, world_eta.
Qed.

(** The soft branch, with the options normalised and the keys merged. *)
Lemma destroy_with_soft (cls : Class) (methods : list (string * Relation))
    (this : Instance) (options : option loc) (w w0 : World) (l : loc) :
  options_or_empty options w = (l, w0) →
  softDelete cls = JBool true →
  prop (deref w0 l) "hardDelete" ≠ OVal (JBool true) →
  destroy_with' cls methods this options w
  = let w1 := store l (merge is_undefined_opt (deref w0 l) softDelete_options)
                w0 in
    let attrs := marker_attrs settings now cls in
    match pre_events' cls this attrs l w1 with
    | (Err e, w) => (Err e, this, w)
    | (Ok _, w) =>
    match write run_update cls this attrs l w with
    | (Err e, w) => (Err e, this, w)
    | (Ok resp, w) =>
    match after_write' cls this attrs l resp w with
    | (Err e, this, w) => (Err e, this, w)
    | (Ok _, this, w) =>
    match cascade' cls methods this l w with
    | (Err e, w) => (Err e, this, w)
    | (Ok _, w) => (Ok tt, this, w)
    end end end end.
Proof.
  intros Ho Hs Hh. unfold destroy_with. rewrite Ho.
  apply is_true_spec in Hs. apply is_true_opt_false in Hh.
  by rewrite Hs, Hh.
Qed.

(** C6: when the type is not soft-deletable or [options.hardDelete ===
    true], [destroy] is the original destroy of bookshelf, called on the
    same model with the same options object ([{}] when the caller gave
    none): the options are not touched, no marker attributes are written,
    no update is issued and no event is emitted by the plugin; the only
    effect is the delegated call, whose outcome is returned. *)
Theorem destroy_delegates_to_original (p : Proto) (this : Instance)
    (options : option loc) (w w0 : World) (l : loc) :
  options_or_empty options w = (l, w0) →
  softDelete (proto_class p) ≠ JBool true
    ∨ prop (deref w0 l) "hardDelete" = OVal (JBool true) →
  let d := {| od_table := tableName (proto_class p); od_this := this;
              od_options := l; od_seen := deref w0 l |} in
  destroy' p this options w
  = ((original_destroy d).1, (original_destroy d).2,
     {| heap := heap w0; trace := trace w0 ++ [EOriginalDestroy d] |}).
Proof.
  intros Ho Hc. rewrite destroy_unfold. unfold destroy_with. rewrite Ho.
  assert (is_true (softDelete (proto_class p))
          && negb (is_true_opt (prop (deref w0 l) "hardDelete")) = false)
    as ->.
  { destruct Hc as [H|H].
    - apply is_true_false in H. by rewrite H.
    - apply is_true_opt_spec in H. by rewrite H, andb_false_r. }
  simpl. by destruct (original_destroy _).
Qed.

(** ** The merged options *)

Lemma merged_options_other (o : object) (k : string) :
  softDelete_options !! k = None →
  prop (merge is_undefined_opt o softDelete_options) k = prop o k.
Proof.
  intros H. unfold prop, merge. rewrite lookup_union_with, H.
  by destruct (o !! k).
Qed.

Lemma merged_options_key (o : object) (k : string) (v : optval) :
  softDelete_options !! k = Some v → is_undefined_opt v = false →
  merge is_undefined_opt o softDelete_options !! k = Some v.
Proof.
  intros H Hv. unfold merge. rewrite lookup_union_with, H.
  destruct (o !! k); simpl; by rewrite ?Hv.
Qed.

Lemma transacting_of_merged (o : object) :
  transacting_of (merge is_undefined_opt o softDelete_options)
  = transacting_of o.
Proof. unfold transacting_of. by rewrite merged_options_other. Qed.

(** ** The soft branch, step by step *)

Section SoftBranch.

Variable cls : Class.
Variable methods : list (string * Relation).
Variable this : Instance.
Variable options : option loc.
Variables w w0 : World.
Variable l : loc.
Variable o : object.

Hypothesis Hopt : options_or_empty options w = (l, w0).
Hypothesis Hobj : heap w0 !! l = Some o.
Hypothesis Hsoft : softDelete cls = JBool true.
Hypothesis Hhard : prop o "hardDelete" ≠ OVal (JBool true).

Let attrs := marker_attrs settings now cls.
Let seen := merge is_undefined_opt o softDelete_options.
Let pre :=
  map (trigger_record cls this l seen) (enabled_pre_events settings attrs).
Let u := update_stmt cls this attrs seen.
Let w_upd : World :=
  {| heap := <[l := seen]> (heap w0);
     trace := trace w0 ++ map ETrigger pre ++ [EUpdate u] |}.

Lemma options_address_valid : l < length (heap w0).
Proof using Hobj. by apply lookup_lt_Some in Hobj. Qed.

Lemma soft_start :
  destroy_with' cls methods this options w
  = match settle handlers pre with
    | Err e =>
        (Err e, this,
         {| heap := <[l := seen]> (heap w0);
            trace := trace w0 ++ map ETrigger pre |})
    | Ok _ =>
        match run_update u with
        | Err e => (Err e, this, w_upd)
        | Ok resp =>
            match after_write' cls this attrs l resp w_upd with
            | (Err e, this, w) => (Err e, this, w)
            | (Ok _, this, w) =>
                match cascade' cls methods this l w with
                | (Err e, w) => (Err e, this, w)
                | (Ok _, w) => (Ok tt, this, w)
                end
            end
        end
    end.
Proof using All.
  pose proof options_address_valid as Hl.
  rewrite (destroy_with_soft _ _ _ _ _ _ _ Hopt Hsoft)
    by (by rewrite (deref_lookup _ _ _ Hobj)).
  cbv zeta. rewrite (deref_lookup _ _ _ Hobj).
  rewrite pre_events_eq, deref_store by done. fold attrs seen pre.
  destruct (settle handlers pre); [|done].
  unfold write, log. cbn [heap trace store].
  assert (∀ tr, deref {| heap := <[l:=seen]> (heap w0); trace := tr |} l
                = seen) as ->.
  { intros tr. unfold deref. cbn [heap]. by rewrite list_lookup_insert_eq. }
  fold u. rewrite <- app_assoc. by fold w_upd.
Qed.

Lemma deref_w_upd : deref w_upd l = seen.
Proof using Hobj.
  unfold deref, w_upd. simpl.
  by rewrite list_lookup_insert_eq by apply options_address_valid.
Qed.

Lemma seen_require : prop seen "require" = prop o "require".
Proof. by apply merged_options_other. Qed.

(** The pre-update events did not all resolve. *)
Lemma soft_pre_rejected (e : Error) :
  settle handlers pre = Err e →
  destroy_with' cls methods this options w
  = (Err e, this,
     {| heap := <[l := seen]> (heap w0);
        trace := trace w0 ++ map ETrigger pre |}).
Proof using All. intros H. by rewrite soft_start, H. Qed.

(** The update itself failed. *)
Lemma soft_update_failed (e : Error) :
  settle handlers pre = Ok tt → run_update u = Err e →
  destroy_with' cls methods this options w = (Err e, this, w_upd).
Proof using All. intros H Hu. by rewrite soft_start, H, Hu. Qed.

(** The response is empty and the caller required a row. *)
Lemma soft_no_rows (resp : Resp) :
  settle handlers pre = Ok tt → run_update u = Ok resp →
  isEmpty resp = true → truthy_opt (prop o "require") = true →
  destroy_with' cls methods this options w
  = (Err (NoRowsDeletedError "No Rows Deleted"), this, w_upd).
Proof using All.
  intros H Hu He Hr. rewrite soft_start, H, Hu.
  unfold after_write. by rewrite deref_w_upd, seen_require, He, Hr.
Qed.

(** The events are disabled as a whole. *)
Lemma soft_events_off (resp : Resp) :
  events settings = None → run_update u = Ok resp →
  isEmpty resp && truthy_opt (prop o "require") = false →
  destroy_with' cls methods this options w
  = ((cascade' cls methods this l w_upd).1, this,
     (cascade' cls methods this l w_upd).2).
Proof using All.
  intros Hev Hu He. rewrite soft_start.
  assert (pre = []) as Hpre.
  { unfold pre, enabled_pre_events. by rewrite Hev. }
  rewrite Hpre at 1. simpl. rewrite Hu.
  unfold after_write. rewrite deref_w_upd, seen_require, He, Hev.
  by destruct (cascade' _ _ _ _ _) as [[[]|?] ?].
Qed.

(** The events are enabled: the model is updated in memory, the previous
    attributes are put on the options and the post-update events fire. *)
Let this' := Model_reset (Model_set attrs this).
Let seen' :=
  <[ "previousAttributes" := OObj (_previousAttributes this) ]> seen.

Lemma soft_events_on (ev : EventsCfg) (resp : Resp) :
  events settings = Some ev →
  settle handlers pre = Ok tt → run_update u = Ok resp →
  isEmpty resp && truthy_opt (prop o "require") = false →
  let post :=
    map (trigger_record cls this' l seen') (post_event_list ev resp) in
  let w_post : World :=
    {| heap := <[l := seen']> (heap w0);
       trace := trace w0 ++ map ETrigger pre ++ [EUpdate u]
                ++ map ETrigger post |} in
  destroy_with' cls methods this options w
  = match settle handlers post with
    | Err e => (Err e, this', w_post)
    | Ok _ =>
        ((cascade' cls methods this' l w_post).1, this',
         (cascade' cls methods this' l w_post).2)
    end.
Proof using All.
  intros Hev H Hu He post w_post. rewrite soft_start, H, Hu.
  unfold after_write. rewrite deref_w_upd, seen_require, He, Hev.
  unfold post_events. rewrite all_triggerThen.
  change (_previousAttributes (Model_set attrs this))
    with (_previousAttributes this).
  fold seen'.
  assert (deref (store l seen' w_upd) l = seen') as ->.
  { apply deref_store. unfold w_upd. simpl. rewrite length_insert.
    apply options_address_valid. }
  simpl. rewrite list_insert_insert_eq.
  fold this' post. rewrite <- !app_assoc. fold w_post.
  destruct (settle handlers post); [|done].
  by destruct (cascade' _ _ _ _ _) as [[[]|?] ?].
Qed.

End SoftBranch.

(** ** Steps of the world *)

Section Steps.

Variable trx : option optval.
Variable n : nat.

Local Abbreviation step' := (step settings trx n).

Lemma step_refl (w : World) : step' w w.
Proof.
  split; [|done..]. exists []. by rewrite app_nil_r.
Qed.

Lemma step_trans (w1 w2 w3 : World) : step' w1 w2 → step' w2 w3 → step' w1 w3.
Proof.
  intros [[tr1 [Ht1 Hf1]] Hl1 Hfr1 Hx1] [[tr2 [Ht2 Hf2]] Hl2 Hfr2 Hx2].
  split.
  - exists (tr1 ++ tr2). rewrite Ht2, Ht1, <- app_assoc. split; [done|].
    by apply Forall_app.
  - lia.
  - intros j Hj. by rewrite Hfr2, Hfr1.
  - intros j Hj. rewrite Hx2 by lia. by apply Hx1.
Qed.

Lemma step_logs (w : World) (tr : list Effect) :
  Forall (effect_ok settings trx) tr →
  step' w {| heap := heap w; trace := trace w ++ tr |}.
Proof. intros H. split; [|done..]. by exists tr. Qed.

Lemma step_log (w : World) (e : Effect) :
  effect_ok settings trx e → step' w (log e w).
Proof. intros H. apply step_logs. by constructor. Qed.

Lemma step_store (w : World) (l : loc) (o : object) :
  n ≤ l → transacting_of o = transacting_of (deref w l) →
  step' w (store l o w).
Proof.
  intros Hn Ho. split; simpl.
  - exists []. by rewrite app_nil_r.
  - by rewrite length_insert.
  - intros j Hj. apply list_lookup_insert_ne. lia.
  - intros j Hj. unfold deref. simpl.
    destruct (decide (l = j)) as [->|Hne].
    + by rewrite list_lookup_insert_eq.
    + by rewrite list_lookup_insert_ne.
Qed.

Lemma step_alloc (w : World) (o : object) :
  n ≤ length (heap w) → step' w (alloc o w).2.
Proof.
  intros Hn. split; simpl.
  - exists []. by rewrite app_nil_r.
  - rewrite length_app. lia.
  - intros j Hj. apply lookup_app_l. lia.
  - intros j Hj. unfold deref. simpl. by rewrite lookup_app_l.
Qed.

End Steps.

Lemma step_weaken (trx : option optval) (n m : nat) (w w' : World) :
  m ≤ n → step settings trx n w w' → step settings trx m w w'.
Proof.
  intros Hm [Ht Hl Hf Hx]. split; [done..| |done].
  intros j Hj. apply Hf. lia.
Qed.

Lemma step_deref (trx : option optval) (n : nat) (w w' : World) (j : loc) :
  step settings trx n w w' → j < n → deref w' j = deref w j.
Proof. intros [_ _ Hf _] Hj. unfold deref. by rewrite Hf. Qed.

Lemma transacting_of_destOps (o : object) :
  transacting_of (destOps_of o) = transacting_of o.
Proof.
  unfold destOps_of. destruct (transacting_of o) as [v|] eqn:H.
  - unfold transacting_of in H.
    destruct (truthy_opt (prop o "transacting")) eqn:Hv; [|done].
    injection H as <-. unfold transacting_of.
    assert (prop {[ "transacting" := prop o "transacting" ]} "transacting"
            = prop o "transacting") as ->.
    { unfold prop at 1. by rewrite lookup_singleton_eq. }
    by rewrite Hv.
  - unfold transacting_of, prop. by rewrite lookup_empty.
Qed.

Lemma transacting_of_insert (o : object) (k : string) (v : optval) :
  k ≠ "transacting" → transacting_of (<[k := v]> o) = transacting_of o.
Proof.
  intros H. unfold transacting_of, prop. by rewrite lookup_insert_ne.
Qed.

Lemma all_triggerThen_step (trx : option optval) (n : nat) (cls : Class)
    (this : Instance) (l : loc) (evs : list (string * option TData))
    (w : World) :
  events settings ≠ None →
  step settings trx n w (all (map (triggerThen handlers cls this l) evs) w).2.
Proof.
  intros H. rewrite all_triggerThen. simpl. apply step_logs.
  rewrite Forall_map. by apply Forall_true.
Qed.

(** ** The cascade *)

Section CascadeFacts.

Variable cls : Class.
Variable methods : list (string * Relation).

Hypothesis methods_ok :
  ∀ name rel, (name, rel) ∈ methods → well_behaved settings (rel_destroy rel).

Local Abbreviation cascade_promise' := (cascade_promise run_fetch methods).

Lemma cascade_promise_step (trx trx' : option optval) (n m : nat)
    (w w' : World) (promise : Async unit) :
  step settings trx' m w w' →
  cascade_promise' trx n w promise → cascade_promise' trx n w' promise.
Proof.
  intros [_ Hl _ Hx] (name & rel & f & k & Hin & -> & Hk & Ht).
  exists name, rel, f, k. split_and!; [done..|lia|lia|].
  rewrite <- Ht. apply Hx. lia.
Qed.

Lemma rel_destroy_step (trx : option optval) (n : nat) (w : World)
    (name : string) (rel : Relation) (k : loc) (row : attrs) :
  (name, rel) ∈ methods → n ≤ k < length (heap w) →
  transacting_of (deref w k) = trx →
  step settings trx n w (rel_destroy rel (fetched row) (Some k) w).2.
Proof using methods_ok.
  intros Hin Hk <-.
  apply (methods_ok name rel Hin (fetched row) (Some k) w n); [|lia].
  by intros ? [= <-].
Qed.

Lemma destroy_fetched_step (trx : option optval) (n : nat) (w : World)
    (promise : Async unit) :
  cascade_promise' trx n w promise → step settings trx n w (promise w).2.
Proof using methods_ok.
  intros (name & rel & f & k & Hin & -> & Hk & Ht).
  unfold destroy_fetched. destruct (run_fetch f) as [rows|e];
    [|apply step_refl].
  destruct (rd_is_model (rel_data rel)).
  - destruct rows as [|row rows]; [apply step_refl|].
    apply (rel_destroy_step trx n w name rel k row Hin Hk Ht).
  - revert w Hk Ht. induction rows as [|row rows IH]; intros w Hk Ht;
      simpl; [apply step_refl|].
    pose proof (rel_destroy_step trx n w name rel k row Hin Hk Ht) as Hs.
    unfold settled at 1.
    destruct (rel_destroy rel _ _ _) as [[r t] w1]. simpl in Hs.
    cbn [fst snd].
    assert (step settings trx n w1
              (all (map (λ row w0,
                           settled
                             (rel_destroy rel (fetched row) (Some k) w0))
                      rows) w1).2) as Hs'.
    { apply IH.
      - destruct Hs as [_ Hl _ _]. lia.
      - rewrite <- Ht. apply Hs. lia. }
    destruct (all _ w1) as [rs w2]. simpl in *.
    by eapply step_trans.
Qed.

Lemma all_promises_step (trx : option optval) (n : nat)
    (promises : list (Async unit)) (w : World) :
  Forall (cascade_promise' trx n w) promises →
  step settings trx n w (all promises w).2.
Proof using methods_ok.
  revert w. induction promises as [|p ps IH]; intros w Hps; simpl;
    [apply step_refl|].
  apply Forall_cons in Hps as [Hp Hps].
  pose proof (destroy_fetched_step trx n w p Hp) as Hs.
  destruct (p w) as [r w1]. simpl in Hs.
  assert (step settings trx n w1 (all ps w1).2) as Hs'.
  { apply IH. eapply Forall_impl; [exact Hps|].
    intros q Hq. by eapply cascade_promise_step. }
  destruct (all ps w1) as [rs w2]. simpl in *.
  by eapply step_trans.
Qed.

(** The loop over the dependents, one dependent at a time. *)
Lemma each_dependent_cons (this : Instance) (l : loc) (d : string)
    (deps : list string) (w : World) :
  each_dependent run_fetch cls methods this l (d :: deps) w
  = match list_to_map (M := gmap string Relation) methods !! d with
    | None => (Some (TypeError "this[dependent] is not a function"), [], w)
    | Some rel =>
        let w1 := log (ERelation (tableName cls) d) w in
        let k := length (heap w) in
        let w2 := {| heap := heap w ++ [destOps_of (deref w l)];
                     trace := trace w1 |} in
        if cascades rel then
          let f := fetch_call cls this d in
          let rest :=
            each_dependent run_fetch cls methods this l deps
              (log (EFetch f) w2) in
          (rest.1.1, destroy_fetched run_fetch rel f k :: rest.1.2, rest.2)
        else each_dependent run_fetch cls methods this l deps w2
    end.
Proof.
  simpl. destruct (list_to_map methods !! d); [|done].
  destruct (cascades _); [|done].
  by destruct (each_dependent _ _ _ _ _ _ _) as [[? ?] ?].
Qed.

(** The loop allocates the [destOps], records the relations it resolved
    and the fetches it called, and leaves the promises to run. *)
Lemma each_dependent_step (this : Instance) (l : loc) (deps : list string)
    (w : World) (trx : option optval) :
  l < length (heap w) → transacting_of (deref w l) = trx →
  step settings trx (length (heap w)) w
    (each_dependent run_fetch cls methods this l deps w).2
  ∧ Forall (cascade_promise' trx (length (heap w))
              (each_dependent run_fetch cls methods this l deps w).2)
      (each_dependent run_fetch cls methods this l deps w).1.2.
Proof.
  revert w. induction deps as [|d deps IH]; intros w Hl Ht.
  { split; [apply step_refl | constructor]. }
  rewrite each_dependent_cons.
  destruct (list_to_map methods !! d) as [rel|] eqn:Hd;
    [|split; [apply step_refl | constructor]].
  apply elem_of_list_to_map_2 in Hd. cbv zeta.
  set (w1 := log (ERelation (tableName cls) d) w).
  set (o := destOps_of (deref w l)).
  set (w2 := {| heap := heap w ++ [o]; trace := trace w1 |}).
  assert (step settings trx (length (heap w)) w w2) as H02.
  { eapply step_trans;
      [apply (step_log trx _ w (ERelation (tableName cls) d)); exact I|].
    apply (step_alloc _ _ w1 o). done. }
  assert (length (heap w2) = S (length (heap w))) as Hlen.
  { unfold w2. cbn [heap]. rewrite length_app. simpl. lia. }
  assert (deref w2 l = deref w l) as Hd2.
  { unfold deref, w2. cbn [heap]. by rewrite lookup_app_l. }
  assert (deref w2 (length (heap w)) = o) as Hk2.
  { unfold deref, w2. cbn [heap]. by rewrite list_lookup_middle. }
  destruct (cascades rel).
  - set (f := fetch_call cls this d).
    set (w3 := log (EFetch f) w2).
    assert (length (heap w3) = S (length (heap w))) as Hlen3 by done.
    destruct (IH w3) as [Hs Hps]; [lia | by rewrite <- Ht, <- Hd2 |].
    rewrite Hlen3 in Hs, Hps.
    destruct (each_dependent _ _ _ _ _ _ w3) as [[thrown ps] w'].
    cbn [fst snd] in *.
    split.
    + eapply step_trans; [exact H02|].
      eapply step_trans; [apply (step_log _ _ w2 (EFetch f)); done|].
      eapply step_weaken; [|exact Hs]. lia.
    + constructor.
      * exists d, rel, f, (length (heap w)). split_and!; [done..| |].
        -- destruct Hs as [_ Hlen' _ _]. lia.
        -- rewrite (step_deref _ _ _ _ _ Hs) by lia.
           change (deref w3 (length (heap w))) with
             (deref w2 (length (heap w))).
           rewrite Hk2. unfold o. by rewrite transacting_of_destOps.
      * eapply Forall_impl; [exact Hps|].
        intros q (name & rel' & f' & k & ? & ? & ? & ?).
        exists name, rel', f', k. split_and!; [done..|lia|lia|done].
  - destruct (IH w2) as [Hs Hps]; [lia | by rewrite Hd2 |].
    rewrite Hlen in Hs, Hps.
    destruct (each_dependent _ _ _ _ _ _ w2) as [[thrown ps] w'].
    cbn [fst snd] in *.
    split.
    + eapply step_trans; [exact H02|].
      eapply step_weaken; [|exact Hs]. lia.
    + eapply Forall_impl; [exact Hps|].
      intros q (name & rel' & f' & k & ? & ? & ? & ?).
      exists name, rel', f', k. split_and!; [done..|lia|lia|done].
Qed.

Lemma cascade_step (this : Instance) (l : loc) (w : World) (n : nat)
    (trx : option optval) :
  l < length (heap w) → n ≤ length (heap w) →
  transacting_of (deref w l) = trx →
  step settings trx n w (cascade run_fetch cls methods this l w).2.
Proof using methods_ok.
  intros Hl Hn Ht. unfold cascade.
  destruct (dependents cls) as [[|d deps]|]; [apply step_refl| |apply step_refl].
  destruct (each_dependent_step this l (d :: deps) w trx Hl Ht) as [Hs Hps].
  destruct (each_dependent _ _ _ _ _ _ w) as [[thrown ps] w1].
  simpl in Hs, Hps.
  pose proof (all_promises_step trx (length (heap w)) ps w1 Hps) as Hs'.
  destruct (all ps w1) as [r w2]. simpl in *.
  eapply step_weaken; [exact Hn|]. by eapply step_trans.
Qed.

End CascadeFacts.

(** ** Every destroy is well behaved *)

Lemma pre_triggers_ok (trx : option optval) (f : string * option TData → Trigger)
    (attrs : attrs) :
  Forall (effect_ok settings trx)
    (map ETrigger (map f (enabled_pre_events settings attrs))).
Proof.
  unfold enabled_pre_events. destruct (events settings) eqn:Hev; [|constructor].
  rewrite !Forall_map. apply Forall_true. intros ev. simpl. congruence.
Qed.

Lemma after_write_step (cls : Class) (this : Instance) (attrs : attrs)
    (l : loc) (resp : Resp) (w : World) (n : nat) (trx : option optval) :
  n ≤ l → transacting_of (deref w l) = trx →
  step settings trx n w (after_write' cls this attrs l resp w).2.
Proof.
  intros Hn Ht. unfold after_write.
  destruct (isEmpty resp && _); [apply step_refl|].
  destruct (events settings) as [ev|] eqn:Hev; [|apply step_refl].
  set (w1 := store l _ w).
  assert (step settings trx n w w1) as H1.
  { apply step_store; [done|]. by apply transacting_of_insert. }
  unfold post_events.
  pose proof (all_triggerThen_step trx n cls
                (Model_reset (Model_set attrs this)) l
                (post_event_list ev resp) w1) as H2.
  destruct (all _ w1) as [r w2]. simpl in *.
  eapply step_trans; [exact H1|]. apply H2. congruence.
Qed.

(** The third and fourth [then] together. *)
Lemma finish_step (cls : Class) (methods : list (string * Relation))
    (this : Instance) (attrs : attrs) (l : loc) (resp : Resp) (w : World)
    (n : nat) (trx : option optval) :
  (∀ name rel, (name, rel) ∈ methods →
               well_behaved settings (rel_destroy rel)) →
  n ≤ l < length (heap w) → transacting_of (deref w l) = trx →
  step settings trx n w
    (match after_write' cls this attrs l resp w with
     | (Err e, this, w) => (Err e, this, w)
     | (Ok _, this, w) =>
         match cascade' cls methods this l w with
         | (Err e, w) => (Err e, this, w)
         | (Ok _, w) => (Ok tt, this, w)
         end
     end).2.
Proof.
  intros Hm Hl Ht.
  pose proof (after_write_step cls this attrs l resp w n trx
                (proj1 Hl) Ht) as H4.
  destruct (after_write' cls this attrs l resp w) as [[r this'] w4].
  simpl in H4. destruct r as [[]|e]; [|done].
  assert (l < length (heap w4)) as Hl4.
  { destruct H4 as [_ Hlen _ _]. lia. }
  assert (transacting_of (deref w4 l) = trx) as Ht4.
  { rewrite <- Ht. apply H4. lia. }
  assert (n ≤ length (heap w4)) as Hn4 by lia.
  pose proof (cascade_step cls methods Hm this' l w4 n trx Hl4 Hn4 Ht4)
    as H5.
  destruct (cascade' cls methods this' l w4) as [r w5]. simpl in H5.
  assert (step settings trx n w w5) by (by eapply step_trans).
  by destruct r.
Qed.

Lemma destroy_with_well_behaved (cls : Class)
    (methods : list (string * Relation)) :
  (∀ name rel, (name, rel) ∈ methods →
               well_behaved settings (rel_destroy rel)) →
  well_behaved settings (destroy_with' cls methods).
Proof.
  intros Hm this options w n Hk Hn.
  set (trx := transacting_of (options_content w options)).
  unfold destroy_with.
  destruct (options_or_empty options w) as [l w0] eqn:Ho.
  assert (step settings trx n w w0 ∧ n ≤ l < length (heap w0)
          ∧ transacting_of (deref w0 l) = trx) as (H0 & Hl & Ht).
  { destruct options as [k|]; simpl in Ho; injection Ho as <- <-.
    - split_and!; [apply step_refl | apply (Hk k eq_refl).. | done].
    - split_and!; [by apply (step_alloc _ _ w ∅) | done | |].
      + simpl. rewrite length_app. simpl. lia.
      + unfold deref. simpl. by rewrite list_lookup_middle. }
  destruct (is_true (softDelete cls) && _).
  - set (seen := merge is_undefined_opt (deref w0 l) softDelete_options).
    set (attrs := marker_attrs settings now cls).
    assert (step settings trx n w0 (store l seen w0)) as H1.
    { apply step_store; [lia|]. apply transacting_of_merged. }
    rewrite pre_events_eq.
    set (w2 := {| heap := heap (store l seen w0); trace := _ |}).
    assert (step settings trx n (store l seen w0) w2) as H2.
    { apply step_logs, pre_triggers_ok. }
    assert (step settings trx n w w2) as H02.
    { eapply step_trans; [exact H0|]. by eapply step_trans. }
    destruct (settle handlers _); [|done].
    unfold write.
    set (u := update_stmt cls this attrs (deref w2 l)).
    assert (step settings trx n w (log (EUpdate u) w2)) as H3.
    { eapply step_trans; [exact H02|]. apply step_log. simpl.
      rewrite <- Ht. unfold w2, deref. simpl.
      rewrite list_lookup_insert_eq by lia. simpl.
      unfold seen. by rewrite transacting_of_merged. }
    destruct (run_update u) as [resp|e]; [|done].
    set (w3 := log (EUpdate u) w2) in *.
    assert (l < length (heap w3)) as Hl3.
    { unfold w3, w2. simpl. rewrite length_insert. lia. }
    assert (transacting_of (deref w3 l) = trx) as Ht3.
    { unfold w3, w2, deref. simpl.
      rewrite list_lookup_insert_eq by lia. simpl.
      unfold seen. by rewrite transacting_of_merged. }
    eapply step_trans; [exact H3|].
    apply finish_step; [done | lia | done].
  - destruct (original_destroy _) as [r this']. simpl.
    eapply step_trans; [exact H0|]. by apply step_log.
Qed.

(** Induction on a class and the targets of its relations. *)
Lemma Proto_induction (P : Proto → Prop) :
  (∀ cls relations,
     Forall (λ nr : string * (RelatedData * Proto), P nr.2.2) relations →
     P (MkProto cls relations)) →
  ∀ p, P p.
Proof.
  intros H. fix IH 1. intros [cls relations]. apply H.
  induction relations as [|[name [rd target]] relations IHr];
    constructor; [apply IH | apply IHr].
Qed.

Lemma destroy_well_behaved (p : Proto) : well_behaved settings (destroy' p).
Proof.
  induction p as [cls relations IH] using Proto_induction.
  simpl. apply destroy_with_well_behaved. intros name rel Hin.
  apply list_elem_of_fmap in Hin as ([nm [rd target]] & Heq & Hin).
  injection Heq as -> ->. simpl.
  rewrite Forall_forall in IH. apply (IH _ Hin).
Qed.

Lemma relation_methods_well_behaved (p : Proto) (name : string)
    (rel : Relation) :
  (name, rel) ∈ map (relation_method destroy') (proto_relations p) →
  well_behaved settings (rel_destroy rel).
Proof.
  intros Hin.
  apply list_elem_of_fmap in Hin as ([nm [rd target]] & Heq & Hin).
  injection Heq as -> ->. simpl. apply destroy_well_behaved.
Qed.

(** ** The soft delete, property by property *)

Lemma options_or_empty_trace (options : option loc) (w w0 : World) (l : loc) :
  options_or_empty options w = (l, w0) → trace w0 = trace w.
Proof. destruct options; simpl; by intros [= <- <-]. Qed.

Lemma options_exist (options : option loc) (w w0 : World) (l : loc)
    (o : object) :
  options_or_empty options w = (l, w0) → heap w0 !! l = Some o →
  ∀ k, options = Some k → 0 ≤ k < length (heap w).
Proof.
  intros Ho Hobj k ->. simpl in Ho. injection Ho as <- <-.
  apply lookup_lt_Some in Hobj. lia.
Qed.

Lemma pre_event_names (attrs : attrs) :
  map fst (enabled_pre_events settings attrs)
  = List.filter (pre_event_enabled settings)
      ["destroying"; "saving"; "updating"].
Proof.
  unfold enabled_pre_events, pre_event_enabled, pre_event_list.
  destruct (events settings) as [[[] [] [] ? ? ?]|]; reflexivity.
Qed.

(** The soft branch begins with the enabled pre-update events; the update
    follows when they all resolve and nothing follows when one rejects. *)
Lemma soft_branch_begins (p : Proto) (this : Instance)
    (options : option loc) (w w0 : World) (l : loc) (o : object) :
  options_or_empty options w = (l, w0) →
  heap w0 !! l = Some o →
  softDelete (proto_class p) = JBool true →
  prop o "hardDelete" ≠ OVal (JBool true) →
  let cls := proto_class p in
  let attrs := marker_attrs settings now cls in
  let seen := merge is_undefined_opt o softDelete_options in
  let pre :=
    map (trigger_record cls this l seen) (enabled_pre_events settings attrs) in
  let out := destroy' p this options w in
  ∃ tr,
    trace out.2 = trace w ++ map ETrigger pre ++ tr
    ∧ ((∀ t, t ∈ pre → handlers t = None) →
       ∃ tr', tr = EUpdate (update_stmt cls this attrs seen) :: tr')
    ∧ (∀ t, t ∈ pre → handlers t ≠ None →
       tr = [] ∧ out.1.2 = this
       ∧ ∃ t' e, t' ∈ pre ∧ handlers t' = Some e ∧ out.1.1 = Err e).
Proof.
  intros Ho Hobj Hs Hh cls attrs seen pre out.
  pose proof (soft_start cls (map (relation_method destroy')
                                 (proto_relations p))
                this options w w0 l o Ho Hobj Hs Hh) as E.
  cbv zeta in E. fold cls attrs seen pre in E.
  unfold out. rewrite destroy_unfold. fold cls. rewrite E. clear E.
  rewrite (options_or_empty_trace _ _ _ _ Ho).
  destruct (settle handlers pre) as [[]|e] eqn:Hset.
  - pose proof (proj1 (settle_ok pre) Hset) as Hall.
    destruct (run_update _) as [resp|e] eqn:Hu.
    + pose proof (finish_step cls (map (relation_method destroy')
                                     (proto_relations p))
                    this attrs l resp
                    {| heap := <[l:=seen]> (heap w0);
                       trace := trace w ++ map ETrigger pre
                                ++ [EUpdate (update_stmt cls this attrs seen)]
                    |} 0 (transacting_of seen)
                    (relation_methods_well_behaved p)) as Hf.
      destruct Hf as [(tr & Htr & _) _ _ _].
      * simpl. rewrite length_insert. apply lookup_lt_Some in Hobj. lia.
      * unfold deref. simpl. rewrite list_lookup_insert_eq; [done|].
        by apply lookup_lt_Some in Hobj.
      * exists (EUpdate (update_stmt cls this attrs seen) :: tr).
        rewrite Htr. simpl. rewrite <- !app_assoc. simpl.
        split_and!; [done | by eauto |].
        intros t Ht Hne. by specialize (Hall t Ht).
    + exists [EUpdate (update_stmt cls this attrs seen)]. simpl.
      split_and!; [done | by eauto |].
      intros t Ht Hne. by specialize (Hall t Ht).
  - exists []. simpl. rewrite app_nil_r. split_and!; [done | |].
    + intros Hall. apply settle_ok in Hall. congruence.
    + intros t Ht Hne. split_and!; [done..|].
      apply settle_err in Hset as (t' & Ht' & He). by exists t', e.
Qed.

(** C7: on a soft delete the enabled pre-update events, and only these,
    are emitted in the order destroying, saving, updating, before
    anything else; when all their handlers resolve the next effect is the
    update; when one of them rejects, [destroy] rejects with the error of
    a rejecting handler, the model is as it was and nothing follows the
    events: the update is never issued. *)
Theorem pre_events_settle_before_update (p : Proto) (this : Instance)
    (options : option loc) (w w0 : World) (l : loc) (o : object) :
  options_or_empty options w = (l, w0) →
  heap w0 !! l = Some o →
  softDelete (proto_class p) = JBool true →
  prop o "hardDelete" ≠ OVal (JBool true) →
  let cls := proto_class p in
  let attrs := marker_attrs settings now cls in
  let seen := merge is_undefined_opt o softDelete_options in
  let pre :=
    map (trigger_record cls this l seen) (enabled_pre_events settings attrs) in
  let out := destroy' p this options w in
  map t_event pre
  = List.filter (pre_event_enabled settings)
      ["destroying"; "saving"; "updating"]
  ∧ ∃ tr,
      trace out.2 = trace w ++ map ETrigger pre ++ tr
      ∧ ((∀ t, t ∈ pre → handlers t = None) →
         ∃ tr', tr = EUpdate (update_stmt cls this attrs seen) :: tr')
      ∧ (∀ t, t ∈ pre → handlers t ≠ None →
         tr = [] ∧ out.1.2 = this
         ∧ ∃ t' e, t' ∈ pre ∧ handlers t' = Some e ∧ out.1.1 = Err e).
Proof.
  intros Ho Hobj Hs Hh cls attrs seen pre out. split.
  - unfold pre. rewrite map_map. simpl. apply pre_event_names.
  - apply (soft_branch_begins p this options w w0 l o Ho Hobj Hs Hh).
Qed.

(** The cascade leaves the options of its caller alone and only adds to
    the trace. *)
Lemma cascade_keeps (p : Proto) (this : Instance) (l : loc) (w : World) :
  l < length (heap w) →
  let out := cascade' (proto_class p)
               (map (relation_method destroy') (proto_relations p)) this l w in
  heap out.2 !! l = heap w !! l ∧ ∃ tr, trace out.2 = trace w ++ tr.
Proof.
  intros Hl out.
  destruct (cascade_step (proto_class p) _ (relation_methods_well_behaved p)
              this l w (S l) _ Hl ltac:(lia) eq_refl)
    as [(tr & Htr & _) _ Hf _].
  split; [apply Hf; lia | by exists tr].
Qed.

(** C8, as the code has it: with the events disabled as a whole
    ([settings.events] falsy) a soft delete emits no event at all and
    leaves the model in memory as it was: attributes, previous attributes
    and change tracking. It does not stop after the update: unless the
    update failed or the no-rows error was raised, it goes on to the
    cascade step, whose outcome it returns. *)
Theorem events_disabled_skips_memory_update (p : Proto) (this : Instance)
    (options : option loc) (w w0 : World) (l : loc) (o : object) :
  events settings = None →
  options_or_empty options w = (l, w0) →
  heap w0 !! l = Some o →
  softDelete (proto_class p) = JBool true →
  prop o "hardDelete" ≠ OVal (JBool true) →
  let cls := proto_class p in
  let methods := map (relation_method destroy') (proto_relations p) in
  let attrs := marker_attrs settings now cls in
  let seen := merge is_undefined_opt o softDelete_options in
  let u := update_stmt cls this attrs seen in
  let w_upd : World :=
    {| heap := <[l := seen]> (heap w0); trace := trace w ++ [EUpdate u] |} in
  let out := destroy' p this options w in
  out.1.2 = this
  ∧ (∃ tr, trace out.2 = trace w ++ tr ∧ Forall (λ e, ∀ t, e ≠ ETrigger t) tr)
  ∧ match run_update u with
    | Err e => out = (Err e, this, w_upd)
    | Ok resp =>
        if isEmpty resp && truthy_opt (prop o "require")
        then out = (Err (NoRowsDeletedError "No Rows Deleted"), this, w_upd)
        else out = ((cascade' cls methods this l w_upd).1, this,
                    (cascade' cls methods this l w_upd).2)
    end.
Proof.
  intros Hev Ho Hobj Hs Hh cls methods attrs seen u w_upd out.
  assert (∀ a, enabled_pre_events settings a = []) as Hpre.
  { intros a. unfold enabled_pre_events. by rewrite Hev. }
  assert (match run_update u with
          | Err e => out = (Err e, this, w_upd)
          | Ok resp =>
              if isEmpty resp && truthy_opt (prop o "require")
              then out = (Err (NoRowsDeletedError "No Rows Deleted"), this,
                          w_upd)
              else out = ((cascade' cls methods this l w_upd).1, this,
                          (cascade' cls methods this l w_upd).2)
          end) as Hout.
  { unfold out. rewrite destroy_unfold. fold cls methods.
    unfold w_upd. rewrite <- (options_or_empty_trace _ _ _ _ Ho).
    destruct (run_update u) as [resp|e] eqn:Hu.
    - destruct (isEmpty resp && truthy_opt (prop o "require")) eqn:He.
      + apply andb_true_iff in He as [He Hr].
        pose proof (soft_no_rows cls methods this options w w0 l o Ho Hobj
                      Hs Hh resp) as E.
        cbv zeta in E. rewrite Hpre in E. simpl in E. by apply E.
      + pose proof (soft_events_off cls methods this options w w0 l o Ho
                      Hobj Hs Hh resp Hev) as E.
        cbv zeta in E. rewrite Hpre in E. simpl in E. by apply E.
    - pose proof (soft_update_failed cls methods this options w w0 l o Ho
                    Hobj Hs Hh e) as E.
      cbv zeta in E. rewrite Hpre in E. simpl in E. by apply E. }
  split_and!; [| |exact Hout].
  - destruct (run_update u) as [resp|e]; [|by rewrite Hout].
    destruct (isEmpty resp && _); by rewrite Hout.
  - destruct (destroy_well_behaved p this options w 0) as [(tr & Htr & Hok) _ _ _].
    + by eapply options_exist.
    + lia.
    + exists tr. split; [exact Htr|].
      eapply Forall_impl; [exact Hok|].
      intros e He t ->. by apply He.
Qed.

(** C10, as the code has it: a soft delete mutates the options object of
    its caller in place. Before any event is emitted [method: 'update'],
    [patch: true] and [softDelete: true] are merged into it, the other
    keys staying as they were; every pre-update event is emitted with
    this very object. When the pre-update events resolve, the update
    succeeds, the no-rows error is not raised and the events are enabled,
    [previousAttributes] is added to it, every post-update event is
    emitted with it, and the caller finds both changes in the object
    afterwards; in every other case the object ends with the merged keys
    only. *)
Theorem options_mutated_in_place (p : Proto) (this : Instance)
    (options : option loc) (w w0 : World) (l : loc) (o : object) :
  options_or_empty options w = (l, w0) →
  heap w0 !! l = Some o →
  softDelete (proto_class p) = JBool true →
  prop o "hardDelete" ≠ OVal (JBool true) →
  let cls := proto_class p in
  let attrs := marker_attrs settings now cls in
  let seen := merge is_undefined_opt o softDelete_options in
  let seen' :=
    <[ "previousAttributes" := OObj (_previousAttributes this) ]> seen in
  let this' := Model_reset (Model_set attrs this) in
  let pre :=
    map (trigger_record cls this l seen) (enabled_pre_events settings attrs) in
  let u := update_stmt cls this attrs seen in
  let out := destroy' p this options w in
  (seen !! "method" = Some (OVal (JStr "update"))
   ∧ seen !! "patch" = Some (OVal (JBool true))
   ∧ seen !! "softDelete" = Some (OVal (JBool true))
   ∧ ∀ k, softDelete_options !! k = None → seen !! k = o !! k)
  ∧ Forall (λ t, t_options t = l ∧ t_seen t = seen) pre
  ∧ (∃ tr, trace out.2 = trace w ++ map ETrigger pre ++ tr)
  ∧ (heap out.2 !! l = Some seen ∨ heap out.2 !! l = Some seen')
  ∧ (∀ ev resp,
       events settings = Some ev →
       settle handlers pre = Ok tt →
       run_update u = Ok resp →
       isEmpty resp && truthy_opt (prop o "require") = false →
       let post :=
         map (trigger_record cls this' l seen') (post_event_list ev resp) in
       Forall (λ t, t_options t = l ∧ t_seen t = seen') post
       ∧ heap out.2 !! l = Some seen'
       ∧ ∃ tr, trace out.2
               = trace w ++ map ETrigger pre ++ [EUpdate u]
                 ++ map ETrigger post ++ tr).
Proof.
  intros Ho Hobj Hs Hh cls attrs seen seen' this' pre u out.
  pose proof (lookup_lt_Some _ _ _ Hobj) as Hl.
  set (methods := map (relation_method destroy') (proto_relations p)).
  assert (∀ heap0 tr this0,
            length heap0 = length (heap w0) →
            let c := cascade' cls methods this0 l
                       {| heap := heap0; trace := tr |} in
            heap c.2 !! l = heap0 !! l ∧ ∃ tr', trace c.2 = tr ++ tr')
    as Hcascade.
  { intros heap0 tr this0 Hlen.
    apply (cascade_keeps p this0 l {| heap := heap0; trace := tr |}).
    simpl. lia. }
  assert (∀ ev resp,
       events settings = Some ev →
       settle handlers pre = Ok tt →
       run_update u = Ok resp →
       isEmpty resp && truthy_opt (prop o "require") = false →
       let post :=
         map (trigger_record cls this' l seen') (post_event_list ev resp) in
       heap out.2 !! l = Some seen'
       ∧ ∃ tr, trace out.2
               = trace w ++ map ETrigger pre ++ [EUpdate u]
                 ++ map ETrigger post ++ tr) as Hon.
  { intros ev resp Hev Hset Hu He post.
    pose proof (soft_events_on cls methods this options w w0 l o Ho Hobj
                  Hs Hh ev resp Hev Hset Hu He) as E.
    cbv zeta in E. fold attrs seen seen' this' pre u post in E.
    unfold out. rewrite destroy_unfold. fold cls methods. rewrite E.
    rewrite (options_or_empty_trace _ _ _ _ Ho).
    destruct (settle handlers post).
    - cbn [fst snd].
      destruct (Hcascade (<[l:=seen']> (heap w0))
                  (trace w ++ map ETrigger pre ++ [EUpdate u]
                   ++ map ETrigger post) this')
        as [Hh' [tr Htr]]; [by rewrite length_insert|].
      rewrite Hh', Htr. split; [by apply list_lookup_insert_eq|].
      exists tr. by rewrite <- !app_assoc.
    - cbn [fst snd heap trace]. split; [by apply list_lookup_insert_eq|].
      exists []. by rewrite !app_nil_r. }
  split_and!.
  - by apply merged_options_key.
  - by apply merged_options_key.
  - by apply merged_options_key.
  - intros k Hk. unfold seen, merge. rewrite lookup_union_with, Hk.
    by destruct (o !! k).
  - unfold pre. rewrite Forall_map. by apply Forall_true.
  - destruct (soft_branch_begins p this options w w0 l o Ho Hobj Hs Hh)
      as (tr & Htr & _).
    by exists tr.
  - pose proof (soft_start cls methods this options w w0 l o Ho Hobj Hs Hh)
      as E.
    cbv zeta in E. fold attrs seen pre u in E.
    destruct (settle handlers pre) as [[]|e] eqn:Hset.
    2:{ left. unfold out. rewrite destroy_unfold. fold cls methods.
        rewrite E. simpl. by apply list_lookup_insert_eq. }
    destruct (run_update u) as [resp|e] eqn:Hu.
    2:{ left. unfold out. rewrite destroy_unfold. fold cls methods.
        rewrite E. simpl. by apply list_lookup_insert_eq. }
    destruct (isEmpty resp && truthy_opt (prop o "require")) eqn:He.
    { left. apply andb_true_iff in He as [He Hr].
      pose proof (soft_no_rows cls methods this options w w0 l o Ho Hobj
                    Hs Hh resp Hset Hu He Hr) as E'.
      cbv zeta in E'. unfold out. rewrite destroy_unfold. fold cls methods.
      rewrite E'. simpl. by apply list_lookup_insert_eq. }
    destruct (events settings) as [ev|] eqn:Hev.
    + right. by apply (Hon ev resp).
    + left.
      pose proof (soft_events_off cls methods this options w w0 l o Ho Hobj
                    Hs Hh resp Hev Hu He) as E'.
      cbv zeta in E'. unfold out. rewrite destroy_unfold. fold cls methods.
      rewrite E'. simpl.
      match goal with
      | |- heap (cascade' _ _ _ _ {| heap := ?h; trace := ?t |}).2 !! _ = _ =>
          destruct (Hcascade h t this) as [Hh' _];
            [by rewrite length_insert|]
      end.
      rewrite Hh'. by apply list_lookup_insert_eq.
  - intros ev resp Hev Hset Hu He post. split.
    + unfold post. rewrite Forall_map. by apply Forall_true.
    + by apply Hon.
Qed.

(** The loop over the dependents, when each of them names a relation. *)
Lemma each_dependent_spec (cls : Class) (methods : list (string * Relation))
    (this : Instance) (l : loc) (deps : list string) (w : World) :
  l < length (heap w) →
  Forall (λ d, is_Some (list_to_map (M := gmap string Relation) methods !! d))
    deps →
  each_dependent run_fetch cls methods this l deps w
  = (None, pushed run_fetch cls methods this (length (heap w)) deps,
     {| heap := heap w ++ map (λ _, destOps_of (deref w l)) deps;
        trace := trace w ++ flat_map (visit cls methods this) deps |}).
Proof.
  revert w. induction deps as [|d deps IH]; intros w Hl Hdeps.
  { simpl. by rewrite !app_nil_r, world_eta. }
  apply Forall_cons in Hdeps as [[rel Hd] Hdeps].
  rewrite each_dependent_cons. simpl. unfold visit at 1. rewrite Hd.
  cbv zeta.
  set (o := destOps_of (deref w l)).
  destruct (cascades rel).
  - rewrite IH; [|simpl; rewrite length_app; lia|done].
    cbn [fst snd heap trace log]. rewrite length_app. simpl.
    rewrite Nat.add_1_r. do 2 f_equal.
    + rewrite <- app_assoc. simpl. do 2 f_equal.
      apply map_ext. intros _. unfold deref. simpl.
      by rewrite lookup_app_l.
    + by rewrite <- !app_assoc.
  - rewrite IH; [|simpl; rewrite length_app; lia|done].
    cbn [fst snd heap trace log]. rewrite length_app. simpl.
    rewrite Nat.add_1_r. do 2 f_equal.
    + rewrite <- app_assoc. simpl. do 2 f_equal.
      apply map_ext. intros _. unfold deref. simpl.
      by rewrite lookup_app_l.
    + by rewrite <- !app_assoc.
Qed.

(** The code's test and options against the words of the specification. *)
Lemma cascades_skipped (rel : Relation) : cascades rel = negb (skipped rel).
Proof.
  unfold cascades, skipped.
  assert (is_true (rel_target_softDelete rel)
          = bool_decide (rel_target_softDelete rel = JBool true)) as ->.
  { destruct (is_true _) eqn:H.
    - apply is_true_spec in H. by rewrite bool_decide_eq_true_2.
    - apply is_true_false in H. by rewrite bool_decide_eq_false_2. }
  assert (String.eqb (rd_type (rel_data rel)) "belongsToMany"
          = bool_decide (rd_type (rel_data rel) = "belongsToMany")) as ->.
  { destruct (String.eqb _ _) eqn:H.
    - apply String.eqb_eq in H. by rewrite bool_decide_eq_true_2.
    - apply String.eqb_neq in H. by rewrite bool_decide_eq_false_2. }
  by destruct (bool_decide _), (bool_decide _).
Qed.

Lemma transacting_expected (o : object) :
  transacting_of o = expected_transaction o.
Proof.
  unfold transacting_of, expected_transaction, prop.
  by destruct (o !! "transacting").
Qed.

Lemma destOps_expected (o : object) : destOps_of o = expected_destOps o.
Proof. unfold destOps_of, expected_destOps. by rewrite transacting_expected. Qed.

Lemma visit_expected (cls : Class) (methods : list (string * Relation))
    (this : Instance) (d : string) :
  visit cls methods this d
  = expected_visit (tableName cls) (attributes this) methods d.
Proof.
  unfold visit, expected_visit.
  destruct (list_to_map methods !! d) as [rel|]; [|done].
  rewrite cascades_skipped. by destruct (skipped rel).
Qed.

Lemma pushed_expected (cls : Class) (methods : list (string * Relation))
    (this : Instance) (k : loc) (deps : list string) :
  Forall (λ d, is_Some (list_to_map (M := gmap string Relation) methods !! d))
    deps →
  pushed run_fetch cls methods this k deps
  = expected_promises run_fetch (tableName cls) (attributes this) methods k
      deps.
Proof.
  intros Hnamed. revert k.
  induction Hnamed as [|d deps [rel Hd] _ IH]; intros k; simpl; [done|].
  rewrite Hd, cascades_skipped, IH. by destruct (skipped rel).
Qed.

(** C3, as the code has it. A soft delete whose write passed and whose
    post-update events resolved goes on to the cascade, on the model as
    marked in memory. The cascade of a model with a non-empty
    [dependents] list of relation names visits every named relation in
    order; it skips a relation of kind belongsToMany and a relation whose
    target is not soft-deletable; every other relation it fetches with a
    [fetch] that is given no options, so not the transaction; it gives
    each dependent options of its own, [{transacting: trx}] when the
    caller's options carry a transaction and [{}] otherwise, and destroys
    each model a relation fetched with the options of that relation, so
    that every update of the cascade joins the caller's transaction; a
    relation that fetches no row is a no-op, not an error. *)
Theorem cascade_visits_dependents (p : Proto) :
  let cls := proto_class p in
  let methods := map (relation_method destroy') (proto_relations p) in
  (∀ this options w w0 l o ev resp,
     options_or_empty options w = (l, w0) →
     heap w0 !! l = Some o →
     softDelete cls = JBool true →
     prop o "hardDelete" ≠ OVal (JBool true) →
     events settings = Some ev →
     let attrs := marker_attrs settings now cls in
     let seen := merge is_undefined_opt o softDelete_options in
     let seen' :=
       <[ "previousAttributes" := OObj (_previousAttributes this) ]> seen in
     let this' := Model_reset (Model_set attrs this) in
     let pre :=
       map (trigger_record cls this l seen)
         (enabled_pre_events settings attrs) in
     let u := update_stmt cls this attrs seen in
     let post :=
       map (trigger_record cls this' l seen') (post_event_list ev resp) in
     settle handlers pre = Ok tt →
     run_update u = Ok resp →
     isEmpty resp && truthy_opt (prop o "require") = false →
     settle handlers post = Ok tt →
     let out := destroy' p this options w in
     out.1.2 = this'
     ∧ (out.1.1, out.2)
       = cascade' cls methods this' l
           {| heap := <[l := seen']> (heap w0);
              trace := trace w ++ map ETrigger pre ++ [EUpdate u]
                       ++ map ETrigger post |}
     ∧ expected_transaction seen' = expected_transaction o)
  ∧ (∀ this l w deps,
       dependents cls = Some deps → deps ≠ [] →
       l < length (heap w) →
       Forall (λ d, is_Some (list_to_map (M := gmap string Relation)
                               methods !! d)) deps →
       cascade' cls methods this l w
       = all (expected_promises run_fetch (tableName cls) (attributes this)
                methods (length (heap w)) deps)
           {| heap := heap w ++ map (λ _, expected_destOps (deref w l)) deps;
              trace := trace w
                       ++ flat_map (expected_visit (tableName cls)
                                      (attributes this) methods) deps |}
       ∧ ∃ tr,
           trace (cascade' cls methods this l w).2 = trace w ++ tr
           ∧ (∀ upd, EUpdate upd ∈ tr →
                     u_transacting upd = expected_transaction (deref w l))
           ∧ (∀ f, EFetch f ∈ tr → f_options f = None))
  ∧ (∀ rel f k w',
       run_fetch f = Ok [] →
       destroy_fetched run_fetch rel f k w' = (Ok tt, w'))
  ∧ (∀ rel f k w' row rows,
       run_fetch f = Ok (row :: rows) →
       destroy_fetched run_fetch rel f k w'
       = if rd_is_model (rel_data rel)
         then ((rel_destroy rel (fetched row) (Some k) w').1.1,
               (rel_destroy rel (fetched row) (Some k) w').2)
         else all (map (λ r w0,
                          ((rel_destroy rel (fetched r) (Some k) w0).1.1,
                           (rel_destroy rel (fetched r) (Some k) w0).2))
                     (row :: rows)) w').
Proof.
  intros cls methods. split_and!.
  - intros this options w w0 l o ev resp Ho Hobj Hs Hh Hev attrs seen seen'
      this' pre u post Hset Hu He Hpost out.
    pose proof (soft_events_on cls methods this options w w0 l o Ho Hobj Hs Hh
                  ev resp Hev Hset Hu He) as E.
    cbv zeta in E. fold attrs seen seen' this' pre u post in E.
    rewrite Hpost in E. rewrite (options_or_empty_trace _ _ _ _ Ho) in E.
    unfold out. rewrite destroy_unfold. fold cls methods. rewrite E.
    split_and!; [done | by destruct (cascade' _ _ _ _ _) |].
    unfold expected_transaction, seen', seen, merge.
    rewrite lookup_insert_ne by done. rewrite lookup_union_with.
    by destruct (o !! "transacting").
  - intros this l w deps Hdeps Hne Hl Hnamed. split.
    + unfold cascade. rewrite Hdeps. destruct deps as [|d deps']; [done|].
      rewrite (each_dependent_spec cls methods this l _ w Hl Hnamed).
      rewrite (pushed_expected cls methods this _ _ Hnamed).
      rewrite (flat_map_ext _ _ (visit_expected cls methods this)).
      rewrite destOps_expected.
      by destruct (all _ _).
    + destruct (cascade_step cls methods (relation_methods_well_behaved p)
                  this l w 0 _ Hl ltac:(lia) eq_refl)
        as [(tr & Htr & Hok) _ _ _].
      exists tr. rewrite Forall_forall in Hok. split_and!; [done| |].
      * intros upd Hin. rewrite <- transacting_expected. apply (Hok _ Hin).
      * intros f Hin. apply (Hok _ Hin).
  - intros rel f k w' Hf. unfold destroy_fetched. rewrite Hf.
    by destruct (rd_is_model _).
  - intros rel f k w' row rows Hf. unfold destroy_fetched. rewrite Hf.
    by destruct (rd_is_model _).
Qed.

(** ** The check of the response and the where-clause of the update *)

Lemma isEmpty_rows (ids : list jsval) :
  isEmpty (RespRows ids) = true ↔ ids = [].
Proof. destruct ids; simpl; split; congruence. Qed.

Lemma isEmpty_no_rows (resp : Resp) :
  rows_affected resp = 0 → isEmpty resp = true.
Proof. destruct resp as [n|[|id ids]]; simpl; congruence. Qed.

Lemma isEmpty_count (n : nat) : isEmpty (RespCount n) = true.
Proof. reflexivity. Qed.

(** When the update affected no row and the caller required one, the
    soft delete rejects with [NoRowsDeletedError]; the model is as it was
    and nothing follows the update in the trace. *)
Lemma require_zero_rows_rejects (p : Proto) (this : Instance)
    (options : option loc) (w w0 : World) (l : loc) (o : object)
    (resp : Resp) :
  options_or_empty options w = (l, w0) →
  heap w0 !! l = Some o →
  softDelete (proto_class p) = JBool true →
  prop o "hardDelete" ≠ OVal (JBool true) →
  let cls := proto_class p in
  let attrs := marker_attrs settings now cls in
  let seen := merge is_undefined_opt o softDelete_options in
  let pre :=
    map (trigger_record cls this l seen) (enabled_pre_events settings attrs) in
  let u := update_stmt cls this attrs seen in
  settle handlers pre = Ok tt →
  run_update u = Ok resp →
  rows_affected resp = 0 →
  truthy_opt (prop o "require") = true →
  destroy' p this options w
  = (Err (NoRowsDeletedError "No Rows Deleted"), this,
     {| heap := <[l := seen]> (heap w0);
        trace := trace w ++ map ETrigger pre ++ [EUpdate u] |}).
Proof.
  intros Ho Hobj Hs Hh cls attrs seen pre u Hset Hu Hz Hr.
  rewrite destroy_unfold, <- (options_or_empty_trace _ _ _ _ Ho).
  apply (soft_no_rows _ _ _ _ _ _ _ _ Ho Hobj Hs Hh resp Hset Hu);
    [by apply isEmpty_no_rows | done].
Qed.

(** On a driver that answers an update with the number of affected rows,
    the same rejection is raised whatever the number is. *)
Lemma require_rejects_any_count (p : Proto) (this : Instance)
    (options : option loc) (w w0 : World) (l : loc) (o : object) (n : nat) :
  options_or_empty options w = (l, w0) →
  heap w0 !! l = Some o →
  softDelete (proto_class p) = JBool true →
  prop o "hardDelete" ≠ OVal (JBool true) →
  let cls := proto_class p in
  let attrs := marker_attrs settings now cls in
  let seen := merge is_undefined_opt o softDelete_options in
  let pre :=
    map (trigger_record cls this l seen) (enabled_pre_events settings attrs) in
  let u := update_stmt cls this attrs seen in
  settle handlers pre = Ok tt →
  run_update u = Ok (RespCount n) →
  truthy_opt (prop o "require") = true →
  (destroy' p this options w).1.1
  = Err (NoRowsDeletedError "No Rows Deleted").
Proof.
  intros Ho Hobj Hs Hh cls attrs seen pre u Hset Hu Hr.
  rewrite destroy_unfold.
  by rewrite (soft_no_rows _ _ _ _ _ _ _ _ Ho Hobj Hs Hh (RespCount n)
                Hset Hu eq_refl Hr).
Qed.

(** The update of a soft delete: on the table of the model, in the
    transaction of the options if there is one, returning the identifier
    column, and matching the column [id] against the value of the
    identifier attribute. *)
Lemma update_stmt_shape (cls : Class) (this : Instance) (attrs : attrs)
    (o : object) :
  update_stmt cls this attrs o
  = {| u_table := tableName cls;
       u_transacting := transacting_of o;
       u_attrs := attrs;
       u_returning := idAttribute cls;
       u_where := [("id", default JUndefined
                            (attributes this !! idAttribute cls))] |}.
Proof. reflexivity. Qed.

End DestroyFacts.

(** ** The properties on concrete models *)

Import Fixtures.

Lemma destroy_delegates_to_original_witness :
  destroy default_settings 0 quiet one_row_counted nothing_fetched
    bookshelf_destroy orders_proto order42 (Some 0)
    (world_of {[ "hardDelete" := OVal (JBool true) ]})
  = (Ok tt, order42,
     {| heap := [ {[ "hardDelete" := OVal (JBool true) ]} ];
        trace :=
          [EOriginalDestroy
             {| od_table := "orders"; od_this := order42; od_options := 0;
                od_seen := {[ "hardDelete" := OVal (JBool true) ]} |}] |}).
Proof.
  rewrite (destroy_delegates_to_original default_settings 0 quiet
           one_row_counted nothing_fetched bookshelf_destroy orders_proto
           order42 (Some 0)
           (world_of {[ "hardDelete" := OVal (JBool true) ]})
           (world_of {[ "hardDelete" := OVal (JBool true) ]}) 0 eq_refl).
  - reflexivity.
  - right. vm_compute. reflexivity.
Defined.

Lemma pre_events_settle_before_update_witness :
  (destroy default_settings 0 (veto "destroying") one_row_counted
     nothing_fetched bookshelf_destroy items order42 (Some 0)
     (world_of ∅)).1.1
  = Err (HostError "handler rejected").
Proof.
  assert (prop (∅ : object) "hardDelete" ≠ OVal (JBool true)) as Hh
    by (vm_compute; discriminate).
  destruct (pre_events_settle_before_update default_settings 0
              (veto "destroying") one_row_counted nothing_fetched
              bookshelf_destroy items order42 (Some 0) (world_of ∅)
              (world_of ∅) 0 ∅ eq_refl eq_refl eq_refl Hh)
    as [_ (tr & _ & _ & H)].
  destruct (H _ (list_elem_of_here _ _)) as (_ & _ & t' & e & _ & Ht' & He).
  - vm_compute. discriminate.
  - rewrite He. f_equal. unfold veto in Ht'.
    destruct (String.eqb _ _); congruence.
Defined.

Lemma events_disabled_skips_memory_update_witness :
  (destroy no_events 0 quiet one_row_counted two_items bookshelf_destroy
     orders_proto order42 (Some 0) (world_of ∅)).1.2
  = order42.
Proof.
  assert (prop (∅ : object) "hardDelete" ≠ OVal (JBool true)) as Hh
    by (vm_compute; discriminate).
  apply (events_disabled_skips_memory_update no_events 0 quiet
           one_row_counted two_items bookshelf_destroy orders_proto order42
           (Some 0) (world_of ∅) (world_of ∅) 0 ∅ eq_refl eq_refl eq_refl
           eq_refl Hh).
Defined.

(** C8 as stated fails: with the events disabled, the soft delete of an
    order goes on to the cascade and soft-deletes its two items. *)
Lemma cascade_runs_with_events_disabled :
  events no_events = None
  ∧ updates (trace (destroy no_events 0 quiet one_row_counted two_items
                      bookshelf_destroy orders_proto order42 (Some 0)
                      (world_of ∅)).2)
    = [("orders", None); ("items", None); ("items", None)]
  ∧ fetches (trace (destroy no_events 0 quiet one_row_counted two_items
                      bookshelf_destroy orders_proto order42 (Some 0)
                      (world_of ∅)).2)
    = [ {| f_table := "orders"; f_owner := {[ "id" := JNum 42 ]};
           f_relation := "items"; f_options := None |} ].
Proof. split_and!; [reflexivity | vm_compute; reflexivity..]. Qed.

Lemma options_mutated_in_place_witness :
  ∃ o, heap (destroy default_settings 0 quiet one_row_returned
               nothing_fetched bookshelf_destroy items order42 (Some 0)
               (world_of {[ "require" := OVal (JBool true) ]})).2 !! 0
       = Some o
       ∧ o !! "require" = Some (OVal (JBool true))
       ∧ o !! "method" = Some (OVal (JStr "update"))
       ∧ o !! "patch" = Some (OVal (JBool true))
       ∧ o !! "softDelete" = Some (OVal (JBool true))
       ∧ o !! "previousAttributes" = Some (OObj {[ "id" := JNum 42 ]}).
Proof.
  assert (prop ({[ "require" := OVal (JBool true) ]} : object) "hardDelete"
          ≠ OVal (JBool true)) as Hh
    by (vm_compute; discriminate).
  destruct (options_mutated_in_place default_settings 0 quiet
              one_row_returned nothing_fetched bookshelf_destroy items
              order42 (Some 0)
              (world_of {[ "require" := OVal (JBool true) ]})
              (world_of {[ "require" := OVal (JBool true) ]}) 0
              {[ "require" := OVal (JBool true) ]}
              eq_refl eq_refl eq_refl Hh)
    as (_ & _ & _ & _ & H).
  destruct (H default_events (RespRows [JNum 42]) eq_refl eq_refl eq_refl
              eq_refl) as (_ & Hheap & _).
  eexists. split; [exact Hheap|].
  vm_compute. by split_and!.
Defined.

(** The second component of a pair that equals [p] is [p.2]. *)
Lemma second_of_pair {A B : Type} (a : A) (b : B) (p : A * B) :
  (a, b) = p → b = p.2.
Proof. by intros <-. Qed.

(** C10 as stated fails: with the events enabled, a soft delete that
    required a row and matched none has issued its update, and its
    options carry the merged keys but no [previousAttributes]. *)
Lemma no_previous_attributes_without_rows :
  events default_settings = Some default_events
  ∧ updates (trace (destroy default_settings 0 quiet no_row_returned
                      nothing_fetched bookshelf_destroy items order42
                      (Some 0)
                      (world_of {[ "require" := OVal (JBool true) ]})).2)
    = [("items", None)]
  ∧ ∃ o, heap (destroy default_settings 0 quiet no_row_returned
                 nothing_fetched bookshelf_destroy items order42 (Some 0)
                 (world_of {[ "require" := OVal (JBool true) ]})).2 !! 0
         = Some o
         ∧ o !! "softDelete" = Some (OVal (JBool true))
         ∧ o !! "previousAttributes" = None.
Proof.
  split_and!; [reflexivity | vm_compute; reflexivity |].
  eexists. split; [vm_compute; reflexivity|].
  vm_compute. by split.
Qed.

Lemma cascade_visits_dependents_witness :
  fetches (trace (destroy default_settings 0 quiet one_row_returned two_items
                    bookshelf_destroy CascadeFixtures.shop_orders order42
                    (Some 0) (world_of CascadeFixtures.in_transaction)).2)
  = [ {| f_table := "orders";
         f_owner := {[ "deleted_at" := JDate 0; "id" := JNum 42 ]};
         f_relation := "items"; f_options := None |} ]
  ∧ updates (trace (destroy default_settings 0 quiet one_row_returned
                      two_items bookshelf_destroy CascadeFixtures.shop_orders
                      order42 (Some 0)
                      (world_of CascadeFixtures.in_transaction)).2)
    = [("orders", Some (OVal (JHost 1)));
       ("items", Some (OVal (JHost 1)));
       ("items", Some (OVal (JHost 1)))]
  ∧ drop 1 (heap (destroy default_settings 0 quiet one_row_returned
                    two_items bookshelf_destroy CascadeFixtures.shop_orders
                    order42 (Some 0)
                    (world_of CascadeFixtures.in_transaction)).2)
    = [ <[ "previousAttributes" := OObj {[ "id" := JNum 8 ]} ]>
          (merge is_undefined_opt CascadeFixtures.in_transaction
             softDelete_options);
        CascadeFixtures.in_transaction;
        CascadeFixtures.in_transaction ].
Proof.
  assert (prop CascadeFixtures.in_transaction "hardDelete"
          ≠ OVal (JBool true)) as Hh
    by (vm_compute; discriminate).
  destruct (cascade_visits_dependents default_settings 0 quiet
              one_row_returned two_items bookshelf_destroy
              CascadeFixtures.shop_orders) as (Hplace & Hloop & _).
  destruct (Hplace order42 (Some 0)
              (world_of CascadeFixtures.in_transaction)
              (world_of CascadeFixtures.in_transaction) 0
              CascadeFixtures.in_transaction default_events
              (RespRows [JNum 42]) eq_refl eq_refl eq_refl Hh eq_refl
              eq_refl eq_refl eq_refl eq_refl) as (_ & Hout & _).
  apply second_of_pair in Hout.
  match type of Hout with
  | _ = (cascade _ _ _ ?this ?l ?w).2 =>
      destruct (Hloop this l w ["items"; "tags"; "logs"]) as [Hc _]
  end.
  - reflexivity.
  - discriminate.
  - vm_compute; lia.
  - repeat (apply Forall_cons_2;
              [apply not_eq_None_Some; intros Hn;
               apply not_elem_of_list_to_map_2 in Hn; apply Hn; vm_compute;
               repeat first [apply list_elem_of_here
                            | apply list_elem_of_further] |]);
      apply Forall_nil_2.
  - rewrite Hout, Hc. clear. split; [|split]; vm_compute; reflexivity.
Defined.

(** C3 as stated fails: the soft delete of an order inside a transaction
    destroys its items inside the transaction, but fetches them with a
    [fetch] that was given no options, and so no transaction. *)
Lemma transaction_not_passed_to_fetch :
  transacting_of (deref (world_of {[ "transacting" := OVal (JHost 1) ]}) 0)
  = Some (OVal (JHost 1))
  ∧ fetches (trace (destroy no_events 0 quiet one_row_counted two_items
                      bookshelf_destroy orders_proto order42 (Some 0)
                      (world_of {[ "transacting" := OVal (JHost 1) ]})).2)
    = [ {| f_table := "orders"; f_owner := {[ "id" := JNum 42 ]};
           f_relation := "items"; f_options := None |} ]
  ∧ updates (trace (destroy no_events 0 quiet one_row_counted two_items
                      bookshelf_destroy orders_proto order42 (Some 0)
                      (world_of {[ "transacting" := OVal (JHost 1) ]})).2)
    = [("orders", Some (OVal (JHost 1)));
       ("items", Some (OVal (JHost 1)));
       ("items", Some (OVal (JHost 1)))].
Proof. split_and!; vm_compute; reflexivity. Qed.

(** C1 fails on the code: on a driver that resolves an update to the
    number of affected rows, a soft delete with [require: true] whose
    update affected one row rejects with [NoRowsDeletedError], because
    [isEmpty] of a number is true. *)
Theorem destroy_require_rejects_counted_row :
  one_row_counted
    (update_stmt (proto_class items) order42
       (marker_attrs default_settings 0 (proto_class items))
       (merge is_undefined_opt {[ "require" := OVal (JBool true) ]}
          softDelete_options))
  = Ok (RespCount 1)
  ∧ rows_affected (RespCount 1) = 1
  ∧ (destroy default_settings 0 quiet one_row_counted nothing_fetched
       bookshelf_destroy items order42 (Some 0)
       (world_of {[ "require" := OVal (JBool true) ]})).1.1
    = Err (NoRowsDeletedError "No Rows Deleted").
Proof. split_and!; [reflexivity | reflexivity | vm_compute; reflexivity]. Qed.

(** C5 fails on the code: the update of a model whose identifier
    attribute is [uuid] matches the column [id], not the column [uuid],
    against the value of the identifier. *)
Theorem destroy_matches_column_id :
  idAttribute (proto_class accounts) = "uuid"
  ∧ trace (destroy no_events 0 quiet one_row_counted nothing_fetched
             bookshelf_destroy accounts account_a1 (Some 0) (world_of ∅)).2
    = [EUpdate {| u_table := "accounts";
                  u_transacting := None;
                  u_attrs := {[ "deleted_at" := JDate 0 ]};
                  u_returning := "uuid";
                  u_where := [("id", JStr "a1")] |}].
Proof. split; [reflexivity | vm_compute; reflexivity]. Qed.

(** * Further properties *)

(** ** The settings *)

Lemma default_flags_cfg : flags_cfg default_flags = default_events.
Proof. reflexivity. Qed.

Lemma merged_flag (flags : attrs) (name : string) :
  truthy (default JUndefined
            (merge is_undefined default_flags flags !! name))
  = match flags !! name with
    | Some v => if is_undefined v
                then truthy (default JUndefined (default_flags !! name))
                else truthy v
    | None => truthy (default JUndefined (default_flags !! name))
    end.
Proof.
  unfold merge. rewrite lookup_union_with.
  destruct (default_flags !! name) as [d|], (flags !! name) as [v|];
    simpl; try reflexivity; by destruct v.
Qed.

(** X1: installed without settings the plugin has the default settings;
    otherwise [field] and [sentinel] are the caller's when given and the
    defaults when not; an [events] object overrides exactly the flags it
    gives a value other than [undefined] and keeps the default of every
    other flag; an [events] value that is falsy (and not [undefined])
    disables the hooks as a whole. *)
Theorem plugin_settings_merge (u : UserSettings) :
  plugin_settings None = default_settings
  ∧ field (plugin_settings (Some u)) = default "deleted_at" (us_field u)
  ∧ sentinel (plugin_settings (Some u)) = default None (us_sentinel u)
  ∧ (us_events u = None → events (plugin_settings (Some u)) = Some default_events)
  ∧ (∀ flags, us_events u = Some (EventsObject flags) →
       ∃ ev, events (plugin_settings (Some u)) = Some ev
             ∧ ∀ event, event ∈ event_names →
                 event_flag ev event
                 = match flags !! event with
                   | Some v => if is_undefined v
                               then event_flag default_events event
                               else truthy v
                   | None => event_flag default_events event
                   end)
  ∧ (∀ v, us_events u = Some (EventsValue v) → v ≠ JUndefined →
       truthy v = false → events (plugin_settings (Some u)) = None).
Proof.
  split_and!; try reflexivity.
  - simpl. by intros ->.
  - intros flags Hf. simpl. rewrite Hf. simpl. eexists. split; [done|].
    intros event Hin. unfold event_names in Hin.
    repeat (apply elem_of_cons in Hin as [-> | Hin]);
      [..|by apply elem_of_nil in Hin];
      match goal with
      | |- event_flag (flags_cfg ?m) ?e = _ =>
          change (event_flag (flags_cfg m) e)
            with (truthy (default JUndefined (m !! e)))
      end;
      rewrite merged_flag;
      (destruct (flags !! _) as [v|]; [destruct (is_undefined v)|]);
      reflexivity.
  - intros v Hv Hne Hf. simpl. rewrite Hv. simpl.
    destruct v; try done; simpl in *; by rewrite Hf.
Qed.

(** ** The listeners *)

(** X2: the plugin listens to [fetching] and [fetching:collection] on a
    model and to [fetching] and [counting] on a collection, and to nothing
    else: any other event, such as [counting] on a model, leaves the query
    as it is, whatever the model and the options. *)
Theorem other_events_not_filtered (settings : Settings) (this : Receiver)
    (event : string) (args : list EvArg) (q : Query) :
  (event ≠ "fetching" → event ≠ "fetching:collection" →
   emit settings this Model_listeners event args q = Some q)
  ∧ (event ≠ "fetching" → event ≠ "counting" →
     emit settings this Collection_listeners event args q = Some q).
Proof.
  split; intros H1 H2; cbn -[String.eqb].
  - apply not_eq_sym, String.eqb_neq in H1, H2. by rewrite H1, H2.
  - apply not_eq_sym, String.eqb_neq in H1, H2. by rewrite H1, H2.
Qed.

(** ** Model initialisation *)

(** X3: [initialize] is idempotent on the defaults: initialising from
    defaults that [initialize] produced changes nothing more. *)
Theorem initialize_idempotent (settings : Settings) (softDelete : jsval)
    (defaults : option attrs) :
  Model_initialize settings softDelete
    (Model_initialize settings softDelete defaults)
  = Model_initialize settings softDelete defaults.
Proof.
  unfold Model_initialize.
  destruct (sentinel_set settings) as [s|]; [|done].
  destruct (is_true softDelete); [|done].
  f_equal. simpl. apply map_eq. intros k. unfold merge.
  rewrite !lookup_union_with.
  destruct (decide (k = s)) as [->|Hk].
  - rewrite lookup_singleton_eq.
    destruct (default ∅ defaults !! s) as [v|]; simpl; [|done].
    by destruct v.
  - rewrite lookup_singleton_ne by done.
    by destruct (default ∅ defaults !! k).
Qed.

(** ** The marker attributes *)

(** X4: the attributes a soft delete writes are, before the model formats
    them, the marker field and the sentinel (when one is configured) and
    nothing else; the sentinel is written as [null]; the marker field is
    written as the current date unless the sentinel is configured under
    the name of the marker field, in which case it is written as [null]. *)
Theorem marker_attrs_content (settings : Settings) (now : Z) (cls : Class) :
  ∃ raw : attrs,
    marker_attrs settings now cls = format cls raw
    ∧ (∀ k, is_Some (raw !! k)
            ↔ k = field settings ∨ sentinel_set settings = Some k)
    ∧ (∀ s, sentinel_set settings = Some s → raw !! s = Some JNull)
    ∧ (sentinel_set settings ≠ Some (field settings) →
       raw !! field settings = Some (JDate now)).
Proof.
  unfold marker_attrs. destruct (sentinel_set settings) as [s|].
  - eexists. split; [reflexivity|]. split_and!.
    + intros k. destruct (decide (k = s)) as [->|Hks].
      * rewrite lookup_insert_eq. split; [by right | by eauto].
      * rewrite lookup_insert_ne by done.
        destruct (decide (k = field settings)) as [->|Hkf].
        -- rewrite lookup_singleton_eq. split; [by left | by eauto].
        -- rewrite lookup_singleton_ne by done.
           split; [by intros [? ?] | intros [?|[= ?]]; congruence].
    + intros s' [= ->]. apply lookup_insert_eq.
    + intros Hne. rewrite lookup_insert_ne by congruence.
      apply lookup_singleton_eq.
  - eexists. split; [reflexivity|]. split_and!.
    + intros k. destruct (decide (k = field settings)) as [->|Hkf].
      * rewrite lookup_singleton_eq. split; [by left | by eauto].
      * rewrite lookup_singleton_ne by done.
        split; [by intros [? ?] | intros [?|?]; congruence].
    + done.
    + intros _. apply lookup_singleton_eq.
Qed.

(** ** Soft steps of the world *)

Lemma soft_refl (n : nat) (x : option loc) (w : World) : soft_step n x w w.
Proof. split; [|done..]. exists []. by rewrite app_nil_r. Qed.

Lemma soft_trans (n : nat) (x : option loc) (w1 w2 w3 : World) :
  soft_step n x w1 w2 → soft_step n x w2 w3 → soft_step n x w1 w3.
Proof.
  intros [(tr1 & Ht1 & Hf1) Hl1 Hfr1 Hh1] [(tr2 & Ht2 & Hf2) Hl2 Hfr2 Hh2].
  split.
  - exists (tr1 ++ tr2). rewrite Ht2, Ht1, <- app_assoc. split; [done|].
    by apply Forall_app.
  - lia.
  - intros j Hj Hx. by rewrite Hfr2, Hfr1.
  - intros j Hj. rewrite Hh2 by lia. by apply Hh1.
Qed.

Lemma soft_weaken (n n' : nat) (x x' : option loc) (w w' : World) :
  (∀ j, j < n' → x' ≠ Some j → j < n ∧ x ≠ Some j) →
  soft_step n x w w' → soft_step n' x' w w'.
Proof.
  intros H [Ht Hl Hf Hh]. split; [done..| |done].
  intros j Hj Hx. destruct (H j Hj Hx). by apply Hf.
Qed.

Lemma soft_logs (n : nat) (x : option loc) (w : World) (tr : list Effect) :
  Forall (λ e, ¬ is_original e) tr →
  soft_step n x w {| heap := heap w; trace := trace w ++ tr |}.
Proof. intros H. split; [|done..]. by exists tr. Qed.

Lemma soft_log (n : nat) (x : option loc) (w : World) (e : Effect) :
  ¬ is_original e → soft_step n x w (log e w).
Proof. intros H. apply soft_logs. by constructor. Qed.

Lemma soft_store (n : nat) (w : World) (l : loc) (o : object) :
  prop o "hardDelete" = prop (deref w l) "hardDelete" →
  soft_step n (Some l) w (store l o w).
Proof.
  intros Ho. split; simpl.
  - exists []. by rewrite app_nil_r.
  - by rewrite length_insert.
  - intros j Hj Hx. apply list_lookup_insert_ne. congruence.
  - intros j Hj. unfold deref. simpl.
    destruct (decide (l = j)) as [->|Hne].
    + by rewrite list_lookup_insert_eq.
    + by rewrite list_lookup_insert_ne.
Qed.

Lemma soft_alloc (n : nat) (x : option loc) (w : World) (o : object) :
  n ≤ length (heap w) → soft_step n x w (alloc o w).2.
Proof.
  intros Hn. split; simpl.
  - exists []. by rewrite app_nil_r.
  - rewrite length_app. lia.
  - intros j Hj _. apply lookup_app_l. lia.
  - intros j Hj. unfold deref. simpl. by rewrite lookup_app_l.
Qed.

Lemma hardDelete_of_insert (o : object) (k : string) (v : optval) :
  k ≠ "hardDelete" → prop (<[k := v]> o) "hardDelete" = prop o "hardDelete".
Proof. intros H. unfold prop. by rewrite lookup_insert_ne. Qed.

Lemma hardDelete_of_destOps (o : object) :
  prop (destOps_of o) "hardDelete" ≠ OVal (JBool true).
Proof.
  unfold destOps_of. destruct (transacting_of o); unfold prop.
  - by rewrite lookup_singleton_ne.
  - by rewrite lookup_empty.
Qed.

Lemma triggers_not_original (ts : list Trigger) :
  Forall (λ e, ¬ is_original e) (map ETrigger ts).
Proof. rewrite Forall_map. apply Forall_true. intros t. simpl. tauto. Qed.

(** ** A soft delete stays soft all the way down *)

Section StaysSoft.

Variable settings : Settings.
Variable now : Z.
Variable handlers : Trigger → option Error.
Variable run_update : Update → result Resp.
Variable run_fetch : Fetch → result (list attrs).
Variable original_destroy : OriginalDestroy → result unit * Instance.

Local Abbreviation destroy_with' :=
  (destroy_with settings now handlers run_update run_fetch original_destroy).
Local Abbreviation destroy' :=
  (destroy settings now handlers run_update run_fetch original_destroy).
Local Abbreviation cascade' := (cascade run_fetch).
Local Abbreviation after_write' := (after_write settings handlers).

Section SoftCascade.

Variable cls : Class.
Variable methods : list (string * Relation).

Hypothesis methods_soft :
  ∀ name rel, (name, rel) ∈ methods → soft_relation rel.

Local Abbreviation soft_promise' := (soft_promise run_fetch methods).

Lemma soft_promise_step (n m : nat) (w w' : World) (promise : Async unit) :
  soft_step m None w w' →
  soft_promise' n w promise → soft_promise' n w' promise.
Proof.
  intros [_ Hl _ Hh] (name & rel & f & k & Hin & Hc & -> & Hk & Hhard).
  exists name, rel, f, k. split_and!; [done..|lia|lia|].
  rewrite Hh; [done | lia].
Qed.

Lemma rel_destroy_soft (n : nat) (w : World) (name : string) (rel : Relation)
    (k : loc) (row : attrs) :
  (name, rel) ∈ methods → cascades rel = true →
  n ≤ k < length (heap w) →
  prop (deref w k) "hardDelete" ≠ OVal (JBool true) →
  soft_step n None w (rel_destroy rel (fetched row) (Some k) w).2.
Proof using methods_soft.
  intros Hin Hc Hk Hhard.
  eapply soft_weaken;
    [|apply (methods_soft name rel Hin Hc (fetched row) k w); [lia|done]].
  intros j Hj _. split; [lia|]. intros [= ->]. lia.
Qed.

Lemma destroy_fetched_soft (n : nat) (w : World) (promise : Async unit) :
  soft_promise' n w promise → soft_step n None w (promise w).2.
Proof using methods_soft.
  intros (name & rel & f & k & Hin & Hc & -> & Hk & Hhard).
  unfold destroy_fetched. destruct (run_fetch f) as [rows|e];
    [|apply soft_refl].
  destruct (rd_is_model (rel_data rel)).
  - destruct rows as [|row rows]; [apply soft_refl|].
    by apply (rel_destroy_soft n w name).
  - revert w Hk Hhard. induction rows as [|row rows IH]; intros w Hk Hhard;
      simpl; [apply soft_refl|].
    pose proof (rel_destroy_soft n w name rel k row Hin Hc Hk Hhard) as Hs.
    unfold settled at 1.
    destruct (rel_destroy rel _ _ _) as [[r t] w1]. simpl in Hs.
    cbn [fst snd].
    assert (soft_step n None w1
              (all (map (λ row w0,
                           settled
                             (rel_destroy rel (fetched row) (Some k) w0))
                      rows) w1).2) as Hs'.
    { apply IH.
      - destruct Hs as [_ Hl _ _]. lia.
      - destruct Hs as [_ _ _ Hh]. rewrite Hh; [done | lia]. }
    destruct (all _ w1) as [rs w2]. simpl in *.
    by eapply soft_trans.
Qed.

Lemma all_promises_soft (n : nat) (promises : list (Async unit)) (w : World) :
  Forall (soft_promise' n w) promises →
  soft_step n None w (all promises w).2.
Proof using methods_soft.
  revert w. induction promises as [|p ps IH]; intros w Hps; simpl;
    [apply soft_refl|].
  apply Forall_cons in Hps as [Hp Hps].
  pose proof (destroy_fetched_soft n w p Hp) as Hs.
  destruct (p w) as [r w1]. simpl in Hs.
  assert (soft_step n None w1 (all ps w1).2) as Hs'.
  { apply IH. eapply Forall_impl; [exact Hps|].
    intros q Hq. by eapply soft_promise_step. }
  destruct (all ps w1) as [rs w2]. simpl in *.
  by eapply soft_trans.
Qed.

Lemma each_dependent_soft (this : Instance) (l : loc) (deps : list string)
    (w : World) :
  l < length (heap w) →
  soft_step (length (heap w)) None w
    (each_dependent run_fetch cls methods this l deps w).2
  ∧ Forall (soft_promise' (length (heap w))
              (each_dependent run_fetch cls methods this l deps w).2)
      (each_dependent run_fetch cls methods this l deps w).1.2.
Proof.
  revert w. induction deps as [|d deps IH]; intros w Hl.
  { split; [apply soft_refl | constructor]. }
  rewrite each_dependent_cons.
  destruct (list_to_map methods !! d) as [rel|] eqn:Hd;
    [|split; [apply soft_refl | constructor]].
  apply elem_of_list_to_map_2 in Hd. cbv zeta.
  set (w1 := log (ERelation (tableName cls) d) w).
  set (o := destOps_of (deref w l)).
  set (w2 := {| heap := heap w ++ [o]; trace := trace w1 |}).
  assert (soft_step (length (heap w)) None w w2) as H02.
  { eapply soft_trans;
      [apply (soft_log _ _ w (ERelation (tableName cls) d)); simpl; tauto|].
    apply (soft_alloc _ _ w1 o). done. }
  assert (length (heap w2) = S (length (heap w))) as Hlen.
  { unfold w2. cbn [heap]. rewrite length_app. simpl. lia. }
  assert (deref w2 (length (heap w)) = o) as Hk2.
  { unfold deref, w2. cbn [heap]. by rewrite list_lookup_middle. }
  destruct (cascades rel) eqn:Hc.
  - set (f := fetch_call cls this d).
    set (w3 := log (EFetch f) w2).
    assert (length (heap w3) = S (length (heap w))) as Hlen3 by done.
    destruct (IH w3) as [Hs Hps]; [lia|].
    rewrite Hlen3 in Hs, Hps.
    destruct (each_dependent _ _ _ _ _ _ w3) as [[thrown ps] w'].
    cbn [fst snd] in *.
    split.
    + eapply soft_trans; [exact H02|].
      eapply soft_trans;
        [apply (soft_log _ _ w2 (EFetch f)); simpl; tauto|].
      eapply soft_weaken; [|exact Hs]. intros j Hj Hx. split; [lia|done].
    + constructor.
      * exists d, rel, f, (length (heap w)). split_and!; [done..| |].
        -- destruct Hs as [_ Hlen' _ _]. lia.
        -- destruct Hs as [_ _ _ Hh]. rewrite Hh by lia.
           change (deref w3 (length (heap w))) with
             (deref w2 (length (heap w))).
           rewrite Hk2. apply hardDelete_of_destOps.
      * eapply Forall_impl; [exact Hps|].
        intros q (name & rel' & f' & k & ? & ? & ? & ? & ?).
        exists name, rel', f', k. split_and!; [done..|lia|lia|done].
  - destruct (IH w2) as [Hs Hps]; [lia|].
    rewrite Hlen in Hs, Hps.
    destruct (each_dependent _ _ _ _ _ _ w2) as [[thrown ps] w'].
    cbn [fst snd] in *.
    split.
    + eapply soft_trans; [exact H02|].
      eapply soft_weaken; [|exact Hs]. intros j Hj Hx. split; [lia|done].
    + eapply Forall_impl; [exact Hps|].
      intros q (name & rel' & f' & k & ? & ? & ? & ? & ?).
      exists name, rel', f', k. split_and!; [done..|lia|lia|done].
Qed.

Lemma cascade_soft (this : Instance) (l : loc) (w : World) :
  l < length (heap w) →
  soft_step (length (heap w)) None w (cascade' cls methods this l w).2.
Proof using methods_soft.
  intros Hl. unfold cascade.
  destruct (dependents cls) as [[|d deps]|]; [apply soft_refl| |apply soft_refl].
  destruct (each_dependent_soft this l (d :: deps) w Hl) as [Hs Hps].
  destruct (each_dependent _ _ _ _ _ _ w) as [[thrown ps] w1].
  simpl in Hs, Hps.
  pose proof (all_promises_soft (length (heap w)) ps w1 Hps) as Hs'.
  destruct (all ps w1) as [r w2]. simpl in *.
  by eapply soft_trans.
Qed.

Lemma after_write_soft (this : Instance) (attrs : attrs) (l : loc)
    (resp : Resp) (w : World) (n : nat) :
  soft_step n (Some l) w (after_write' cls this attrs l resp w).2.
Proof.
  unfold after_write.
  destruct (isEmpty resp && _); [apply soft_refl|].
  destruct (events settings) as [ev|] eqn:Hev; [|apply soft_refl].
  set (w1 := store l _ w).
  assert (soft_step n (Some l) w w1) as H1.
  { apply soft_store. by apply hardDelete_of_insert. }
  unfold post_events. rewrite all_triggerThen. simpl.
  eapply soft_trans; [exact H1|].
  apply (soft_logs _ _ w1), triggers_not_original.
Qed.

Lemma destroy_with_stays_soft :
  softDelete cls = JBool true → soft_destroy (destroy_with' cls methods).
Proof using methods_soft.
  intros Hsoft this l w Hl Hhard.
  set (n := length (heap w)).
  unfold destroy_with. simpl.
  apply is_true_spec in Hsoft. apply is_true_opt_false in Hhard.
  rewrite Hsoft, Hhard. simpl.
  set (seen := merge is_undefined_opt (deref w l) softDelete_options).
  set (attrs := marker_attrs settings now cls).
  assert (soft_step n (Some l) w (store l seen w)) as H1.
  { apply soft_store. by apply merged_options_other. }
  rewrite pre_events_eq.
  set (w2 := {| heap := heap (store l seen w); trace := _ |}).
  assert (soft_step n (Some l) w w2) as H02.
  { eapply soft_trans; [exact H1|].
    apply (soft_logs _ _ (store l seen w)), triggers_not_original. }
  destruct (settle handlers _); [|done].
  unfold write.
  set (u := update_stmt cls this attrs (deref w2 l)).
  assert (soft_step n (Some l) w (log (EUpdate u) w2)) as H3.
  { eapply soft_trans; [exact H02|]. apply soft_log. simpl. tauto. }
  destruct (run_update u) as [resp|e]; [|done].
  set (w3 := log (EUpdate u) w2) in *.
  pose proof (after_write_soft this attrs l resp w3 n) as H4.
  destruct (after_write' cls this attrs l resp w3) as [[r this'] w4].
  simpl in H4.
  assert (soft_step n (Some l) w w4) as H04 by (by eapply soft_trans).
  destruct r as [[]|e]; [|done].
  assert (l < length (heap w4)) as Hl4.
  { destruct H04 as [_ Hlen _ _]. lia. }
  pose proof (cascade_soft this' l w4 Hl4) as H5.
  destruct (cascade' cls methods this' l w4) as [r w5]. simpl in H5.
  assert (soft_step n (Some l) w w5).
  { eapply soft_trans; [exact H04|]. eapply soft_weaken; [|exact H5].
    intros j Hj Hx. split; [|done]. destruct H04 as [_ Hlen _ _].
    unfold n in Hj. lia. }
  by destruct r.
Qed.

End SoftCascade.

Lemma destroy_stays_soft (p : Proto) :
  softDelete (proto_class p) = JBool true → soft_destroy (destroy' p).
Proof.
  induction p as [cls relations IH] using Proto_induction.
  simpl. intros Hsoft. apply destroy_with_stays_soft; [|done].
  intros name rel Hin Hc.
  apply list_elem_of_fmap in Hin as ([nm [rd target]] & Heq & Hin).
  injection Heq as -> ->. simpl.
  rewrite Forall_forall in IH. apply (IH _ Hin). simpl.
  unfold cascades in Hc. simpl in Hc.
  apply andb_true_iff in Hc as [Hc _]. by apply is_true_spec.
Qed.

(** ** The soft delete, step by step *)

Local Abbreviation methods_of p :=
  (map (relation_method destroy') (proto_relations p)).

Lemma destroy_options_normal (p : Proto) (this : Instance)
    (options : option loc) (w w0 : World) (l : loc) :
  options_or_empty options w = (l, w0) →
  destroy' p this options w = destroy' p this (Some l) w0.
Proof.
  intros Ho. rewrite destroy_unfold. unfold destroy_with. by rewrite Ho.
Qed.

Section SoftDelete.

Variable p : Proto.
Variable this : Instance.
Variable options : option loc.
Variables w w0 : World.
Variable l : loc.
Variable o : object.

Hypothesis Hopt : options_or_empty options w = (l, w0).
Hypothesis Hobj : heap w0 !! l = Some o.
Hypothesis Hsoft : softDelete (proto_class p) = JBool true.
Hypothesis Hhard : prop o "hardDelete" ≠ OVal (JBool true).

Let cls := proto_class p.
Let attrs := marker_attrs settings now cls.
Let seen := merge is_undefined_opt o softDelete_options.
Let pre :=
  map (trigger_record cls this l seen) (enabled_pre_events settings attrs).
Let u := update_stmt cls this attrs seen.
Let this' := Model_reset (Model_set attrs this).
Let seen' :=
  <[ "previousAttributes" := OObj (_previousAttributes this) ]> seen.

(** The soft delete after a write that passed the check of the response,
    with the events enabled. *)
Lemma soft_delete_written (ev : EventsCfg) (resp : Resp) :
  events settings = Some ev →
  settle handlers pre = Ok tt →
  run_update u = Ok resp →
  isEmpty resp && truthy_opt (prop o "require") = false →
  let post :=
    map (trigger_record cls this' l seen') (post_event_list ev resp) in
  let w_post : World :=
    {| heap := <[l := seen']> (heap w0);
       trace := trace w ++ map ETrigger pre ++ [EUpdate u]
                ++ map ETrigger post |} in
  destroy' p this options w
  = match settle handlers post with
    | Err e => (Err e, this', w_post)
    | Ok _ =>
        ((cascade' cls (methods_of p) this' l w_post).1, this',
         (cascade' cls (methods_of p) this' l w_post).2)
    end.
Proof using All.
  intros Hev Hset Hu He post w_post.
  rewrite destroy_unfold. unfold w_post.
  rewrite <- (options_or_empty_trace _ _ _ _ Hopt).
  apply (soft_events_on settings now handlers run_update run_fetch
           original_destroy cls (methods_of p) this options w w0 l o
           Hopt Hobj Hsoft Hhard ev resp Hev Hset Hu He).
Qed.

(** X5: when the pre-update events resolve and the update itself
    fails, the soft delete rejects with the error of the update as it is;
    the model in memory is as it was, the options carry the merged keys
    only, and nothing follows the update: no post-update event, no
    cascade. *)
Theorem update_failure_propagates (e : Error) :
  settle handlers pre = Ok tt →
  run_update u = Err e →
  destroy' p this options w
  = (Err e, this,
     {| heap := <[l := seen]> (heap w0);
        trace := trace w ++ map ETrigger pre ++ [EUpdate u] |}).
Proof using All.
  intros Hset Hu. rewrite destroy_unfold.
  rewrite <- (options_or_empty_trace _ _ _ _ Hopt).
  apply (soft_update_failed settings now handlers run_update run_fetch
           original_destroy cls (methods_of p) this options w w0 l o
           Hopt Hobj Hsoft Hhard e Hset Hu).
Qed.

(** X6: once the update has resolved and the no-rows error is not raised
    (also when no row matched, if the caller did not require one), with
    the events enabled the model in memory carries the marker attributes
    over its former attributes and is pristine: its previous attributes
    are its attributes and nothing is recorded as changed. This holds
    whether the post-update events and the cascade resolve or reject. *)
Theorem model_marked_and_pristine (ev : EventsCfg) (resp : Resp) :
  events settings = Some ev →
  settle handlers pre = Ok tt →
  run_update u = Ok resp →
  isEmpty resp && truthy_opt (prop o "require") = false →
  let m := (destroy' p this options w).1.2 in
  (∀ k, attributes m !! k
        = match attrs !! k with
          | Some v => Some v
          | None => attributes this !! k
          end)
  ∧ _previousAttributes m = attributes m
  ∧ changed m = ∅.
Proof using All.
  intros Hev Hset Hu He m.
  assert ((destroy' p this options w).1.2 = this') as Hm.
  { rewrite (soft_delete_written ev resp Hev Hset Hu He).
    by destruct (settle handlers (map _ (post_event_list _ _))). }
  unfold m. rewrite Hm. split_and!; [|done..].
  intros k. unfold this'. simpl. rewrite lookup_union.
  by destruct (attrs !! k), (attributes this !! k).
Qed.

(** X7: the post-update events are the enabled ones among destroyed,
    saved, updated, in this order; destroyed carries no data, saved and
    updated carry the response of the update; they are emitted right
    after the update, on the model as updated in memory. When one of their
    handlers rejects, the soft delete rejects with the error of a
    rejecting handler, nothing follows the events (the cascade does not
    run) and the model stays marked in memory. *)
Theorem post_events_after_update (ev : EventsCfg) (resp : Resp) :
  events settings = Some ev →
  settle handlers pre = Ok tt →
  run_update u = Ok resp →
  isEmpty resp && truthy_opt (prop o "require") = false →
  let post :=
    map (trigger_record cls this' l seen') (post_event_list ev resp) in
  let out := destroy' p this options w in
  map t_event post
  = List.filter (event_flag ev) ["destroyed"; "saved"; "updated"]
  ∧ Forall (λ t, t_data t = if String.eqb (t_event t) "destroyed"
                            then None else Some (DResp resp)) post
  ∧ ∃ tr,
      trace out.2 = trace w ++ map ETrigger pre ++ [EUpdate u]
                    ++ map ETrigger post ++ tr
      ∧ (∀ t, t ∈ post → handlers t ≠ None →
         tr = [] ∧ out.1.2 = this'
         ∧ ∃ t' e, t' ∈ post ∧ handlers t' = Some e ∧ out.1.1 = Err e).
Proof using All.
  intros Hev Hset Hu He post out. split_and!.
  - unfold post. rewrite map_map. simpl. unfold post_event_list.
    by destruct ev as [? ? ? [] [] []].
  - unfold post. rewrite Forall_map. unfold post_event_list.
    by destruct ev as [? ? ? [] [] []]; repeat constructor.
  - unfold out. rewrite (soft_delete_written ev resp Hev Hset Hu He).
    fold post. destruct (settle handlers post) as [[]|e] eqn:Hpost.
    + pose proof (proj1 (settle_ok handlers post) Hpost) as Hall.
      destruct (cascade_keeps settings now handlers run_update run_fetch
                  original_destroy p this' l
                  {| heap := <[l := seen']> (heap w0);
                     trace := trace w ++ map ETrigger pre ++ [EUpdate u]
                              ++ map ETrigger post |})
        as [_ [tr Htr]].
      { simpl. rewrite length_insert. by apply lookup_lt_Some in Hobj. }
      exists tr. cbn [fst snd]. fold cls in Htr. rewrite Htr. cbn [trace].
      split; [by rewrite <- !app_assoc|].
      intros t Ht Hne. by specialize (Hall t Ht).
    + exists []. cbn [fst snd trace]. split; [by rewrite !app_nil_r|].
      intros t Ht Hne. split_and!; [done..|].
      apply settle_err in Hpost as (t' & Ht' & He'). by exists t', e.
Qed.

(** X8: the soft delete of a model without dependents, when the events
    are enabled, every handler resolves, the update resolves and the
    no-rows error is not raised, resolves with the model marked in
    memory; what it did is the pre-update events, the one update and the
    post-update events, in this order, and the only object it touched is
    its options. *)
Theorem soft_delete_without_dependents (ev : EventsCfg) (resp : Resp) :
  dependents cls = None ∨ dependents cls = Some [] →
  events settings = Some ev →
  settle handlers pre = Ok tt →
  run_update u = Ok resp →
  isEmpty resp && truthy_opt (prop o "require") = false →
  let post :=
    map (trigger_record cls this' l seen') (post_event_list ev resp) in
  settle handlers post = Ok tt →
  destroy' p this options w
  = (Ok tt, this',
     {| heap := <[l := seen']> (heap w0);
        trace := trace w ++ map ETrigger pre ++ [EUpdate u]
                 ++ map ETrigger post |}).
Proof using All.
  intros Hdeps Hev Hset Hu He post Hpost.
  rewrite (soft_delete_written ev resp Hev Hset Hu He).
  fold post. rewrite Hpost. unfold cascade.
  by destruct Hdeps as [-> | ->].
Qed.

(** X13: when the pre-update events resolve, the update affected no row
    and [options.require] is truthy, the soft delete rejects with
    [NoRowsDeletedError]; the model in memory is as it was, the options
    carry the merged keys only, and nothing follows the update: no
    post-update event, no cascade. *)
Theorem require_rejects_empty_response (resp : Resp) :
  settle handlers pre = Ok tt →
  run_update u = Ok resp →
  rows_affected resp = 0 →
  truthy_opt (prop o "require") = true →
  destroy' p this options w
  = (Err (NoRowsDeletedError "No Rows Deleted"), this,
     {| heap := <[l := seen]> (heap w0);
        trace := trace w ++ map ETrigger pre ++ [EUpdate u] |}).
Proof using All.
  intros Hset Hu Hz Hr. rewrite destroy_unfold.
  rewrite <- (options_or_empty_trace _ _ _ _ Hopt).
  apply (soft_no_rows settings now handlers run_update run_fetch
           original_destroy cls (methods_of p) this options w w0 l o
           Hopt Hobj Hsoft Hhard resp Hset Hu);
    [by apply isEmpty_no_rows | done].
Qed.

(** X11: a soft delete never deletes physically: neither for the model
    nor for any model the cascade reaches is bookshelf's own destroy
    called. *)
Theorem soft_delete_never_physical :
  ∃ tr,
    trace (destroy settings now handlers run_update run_fetch
             original_destroy p this options w).2
    = trace w ++ tr
    ∧ Forall (λ e, ∀ d, e ≠ EOriginalDestroy d) tr.
Proof using All.
  rewrite (destroy_options_normal _ _ _ _ _ _ Hopt).
  destruct (destroy_stays_soft p Hsoft this l w0) as [(tr & Htr & Hok) _ _ _].
  - by apply lookup_lt_Some in Hobj.
  - by rewrite (deref_lookup _ _ _ Hobj).
  - exists tr. rewrite <- (options_or_empty_trace _ _ _ _ Hopt).
    split; [done|]. eapply Forall_impl; [exact Hok|].
    intros e He d ->. by apply He.
Qed.

(** X12: a soft delete touches no options object other than its own:
    every object that was in the heap before the call, except the options
    of the call, is the same after it, whatever the cascade did; the heap
    only grows. *)
Theorem other_options_untouched :
  length (heap w)
  ≤ length (heap (destroy settings now handlers run_update run_fetch
                    original_destroy p this options w).2)
  ∧ ∀ j, j < length (heap w) → options ≠ Some j →
         heap (destroy settings now handlers run_update run_fetch
                 original_destroy p this options w).2 !! j
         = heap w !! j.
Proof using All.
  rewrite (destroy_options_normal _ _ _ _ _ _ Hopt).
  destruct (destroy_stays_soft p Hsoft this l w0) as [_ Hlen Hf _].
  - by apply lookup_lt_Some in Hobj.
  - by rewrite (deref_lookup _ _ _ Hobj).
  - destruct options as [k|]; simpl in Hopt; injection Hopt as <- <-.
    + split; [done|]. intros j Hj Hne. apply Hf; [done | congruence].
    + cbn [heap alloc snd] in Hlen, Hf. rewrite length_app in Hlen, Hf.
      split; [lia|].
      intros j Hj _. rewrite Hf.
      * cbn [heap]. by apply lookup_app_l.
      * lia.
      * intros [= <-]. lia.
Qed.

End SoftDelete.

(** X10: every update of a destroy, that of the model and those of the
    models the cascade reaches, joins the transaction of the caller's
    options when they carry one and no transaction when they do not; a
    destroy called without options runs every update outside a
    transaction. *)
Theorem updates_share_transaction (p : Proto) (this : Instance)
    (options : option loc) (w : World) :
  (∀ k, options = Some k → k < length (heap w)) →
  ∃ tr, trace (destroy' p this options w).2 = trace w ++ tr
        ∧ (∀ upd, EUpdate upd ∈ tr →
                  u_transacting upd
                  = transacting_of (options_content w options))
        ∧ (options = None → ∀ upd, EUpdate upd ∈ tr →
                                   u_transacting upd = None).
Proof.
  intros Hk.
  destruct (destroy_well_behaved settings now handlers run_update run_fetch
              original_destroy p this options w 0)
    as [(tr & Htr & Hok) _ _ _].
  - intros k Hko. specialize (Hk k Hko). lia.
  - lia.
  - exists tr. rewrite Forall_forall in Hok. split_and!; [done| |].
    + intros upd Hin. apply (Hok _ Hin).
    + intros -> upd Hin. apply (Hok _ Hin).
Qed.

(** The loop over the dependents stops at the first one that names no
    relation. *)
Lemma each_dependent_unnamed (cls : Class)
    (methods : list (string * Relation)) (this : Instance) (l : loc)
    (ds1 : list string) (d : string) (ds2 : list string) (w : World) :
  l < length (heap w) →
  Forall (λ d, is_Some (list_to_map (M := gmap string Relation) methods !! d))
    ds1 →
  list_to_map (M := gmap string Relation) methods !! d = None →
  each_dependent run_fetch cls methods this l (ds1 ++ d :: ds2) w
  = (Some (TypeError "this[dependent] is not a function"),
     pushed run_fetch cls methods this (length (heap w)) ds1,
     {| heap := heap w ++ map (λ _, destOps_of (deref w l)) ds1;
        trace := trace w ++ flat_map (visit cls methods this) ds1 |}).
Proof.
  intros Hl Hnamed Hd. revert w Hl.
  induction ds1 as [|d1 ds1 IH]; intros w Hl.
  { simpl. rewrite Hd. by rewrite !app_nil_r, world_eta. }
  apply Forall_cons in Hnamed as [[rel Hd1] Hnamed].
  change ((d1 :: ds1) ++ d :: ds2) with (d1 :: (ds1 ++ d :: ds2)).
  rewrite each_dependent_cons. simpl. unfold visit at 1. rewrite Hd1.
  cbv zeta.
  destruct (cascades rel).
  - rewrite (IH Hnamed); [|simpl; rewrite length_app; lia].
    cbn [fst snd heap trace log]. rewrite length_app. simpl.
    rewrite Nat.add_1_r. do 2 f_equal.
    + rewrite <- app_assoc. simpl. do 2 f_equal.
      apply map_ext. intros _. unfold deref. simpl.
      by rewrite lookup_app_l.
    + by rewrite <- !app_assoc.
  - rewrite (IH Hnamed); [|simpl; rewrite length_app; lia].
    cbn [fst snd heap trace log]. rewrite length_app. simpl.
    rewrite Nat.add_1_r. do 2 f_equal.
    + rewrite <- app_assoc. simpl. do 2 f_equal.
      apply map_ext. intros _. unfold deref. simpl.
      by rewrite lookup_app_l.
    + by rewrite <- !app_assoc.
Qed.

(** X9: when an entry of [dependents] names no relation method, the
    cascade rejects with a [TypeError]; the relations named before it
    were visited and what they fetched is still destroyed, the entries
    after it are not visited. *)
Theorem unnamed_dependent_throws (p : Proto) (this : Instance) (l : loc)
    (w : World) (ds1 : list string) (d : string) (ds2 : list string) :
  let cls := proto_class p in
  let methods := methods_of p in
  dependents cls = Some (ds1 ++ d :: ds2) →
  l < length (heap w) →
  Forall (λ d, is_Some (list_to_map (M := gmap string Relation) methods !! d))
    ds1 →
  list_to_map (M := gmap string Relation) methods !! d = None →
  let promises := pushed run_fetch cls methods this (length (heap w)) ds1 in
  let w1 : World :=
    {| heap := heap w ++ map (λ _, destOps_of (deref w l)) ds1;
       trace := trace w ++ flat_map (visit cls methods this) ds1 |} in
  ∃ message,
    cascade' cls methods this l w
    = (Err (TypeError message), (all promises w1).2).
Proof.
  intros cls methods Hdeps Hl Hnamed Hd promises w1.
  eexists. unfold cascade. rewrite Hdeps.
  rewrite (each_dependent_unnamed cls methods this l ds1 d ds2 w Hl Hnamed Hd).
  fold promises w1.
  destruct (ds1 ++ d :: ds2) eqn:Happ.
  { by destruct ds1. }
  by destruct (all promises w1).
Qed.

End StaysSoft.

(** ** The further properties on concrete models *)

Import MoreFixtures.

Lemma plugin_settings_merge_witness :
  ∃ ev, events (plugin_settings (Some with_saved)) = Some ev
        ∧ event_flag ev "saved" = true
        ∧ event_flag ev "destroying" = true
        ∧ event_flag ev "updated" = false.
Proof.
  destruct (plugin_settings_merge with_saved) as (_ & _ & _ & _ & H & _).
  destruct (H {[ "saved" := JBool true ]} eq_refl) as (ev & Hev & Hflags).
  exists ev. split; [exact Hev|]. split_and!.
  - rewrite Hflags; [reflexivity|]. unfold event_names.
    repeat first [apply list_elem_of_here | apply list_elem_of_further].
  - rewrite Hflags; [reflexivity|]. unfold event_names.
    repeat first [apply list_elem_of_here | apply list_elem_of_further].
  - rewrite Hflags; [reflexivity|]. unfold event_names.
    repeat first [apply list_elem_of_here | apply list_elem_of_further].
Defined.

Lemma other_events_not_filtered_witness :
  emit default_settings orders Model_listeners "counting"
    [ArgOther; ArgOptions ∅] []
  = Some [].
Proof.
  apply (proj1 (other_events_not_filtered default_settings orders "counting"
                  [ArgOther; ArgOptions ∅] [])); discriminate.
Defined.

Lemma marker_attrs_content_witness :
  ∃ raw : attrs,
    marker_attrs with_sentinel 5 (proto_class items)
    = format (proto_class items) raw
    ∧ raw !! "active" = Some JNull
    ∧ raw !! "deleted_at" = Some (JDate 5).
Proof.
  destruct (marker_attrs_content with_sentinel 5 (proto_class items))
    as (raw & Hraw & _ & Hs & Hf).
  exists raw. split_and!; [exact Hraw | by apply Hs | apply Hf; discriminate].
Defined.

Lemma update_failure_propagates_witness :
  (destroy default_settings 0 quiet update_fails nothing_fetched
     bookshelf_destroy items order42 (Some 0) (world_of ∅)).1
  = (Err (HostError "connection lost"), order42).
Proof.
  assert (prop (∅ : object) "hardDelete" ≠ OVal (JBool true)) as Hh
    by (vm_compute; discriminate).
  by rewrite (update_failure_propagates default_settings 0 quiet update_fails
                nothing_fetched bookshelf_destroy items order42 (Some 0)
                (world_of ∅) (world_of ∅) 0 ∅ eq_refl eq_refl eq_refl Hh
                (HostError "connection lost") eq_refl eq_refl).
Defined.

Lemma model_marked_and_pristine_witness :
  changed (destroy default_settings 0 quiet one_row_returned two_items
             bookshelf_destroy orders_proto order42 (Some 0)
             (world_of ∅)).1.2
  = ∅.
Proof.
  assert (prop (∅ : object) "hardDelete" ≠ OVal (JBool true)) as Hh
    by (vm_compute; discriminate).
  apply (model_marked_and_pristine default_settings 0 quiet one_row_returned
           two_items bookshelf_destroy orders_proto order42 (Some 0)
           (world_of ∅) (world_of ∅) 0 ∅ eq_refl eq_refl eq_refl Hh
           default_events (RespRows [JNum 42]) eq_refl eq_refl eq_refl
           eq_refl).
Defined.

Lemma post_events_after_update_witness :
  (destroy default_settings 0 (veto "destroyed") one_row_returned two_items
     bookshelf_destroy orders_proto order42 (Some 0) (world_of ∅)).1.1
  = Err (HostError "handler rejected").
Proof.
  assert (prop (∅ : object) "hardDelete" ≠ OVal (JBool true)) as Hh
    by (vm_compute; discriminate).
  destruct (post_events_after_update default_settings 0 (veto "destroyed")
              one_row_returned two_items bookshelf_destroy orders_proto
              order42 (Some 0) (world_of ∅) (world_of ∅) 0 ∅ eq_refl eq_refl
              eq_refl Hh default_events (RespRows [JNum 42]) eq_refl eq_refl
              eq_refl eq_refl)
    as (_ & _ & tr & _ & H).
  destruct (H _ (list_elem_of_here _ _)) as (_ & _ & t' & e & _ & Ht' & He).
  - vm_compute. discriminate.
  - rewrite He. f_equal. unfold veto in Ht'.
    destruct (String.eqb _ _); congruence.
Defined.

Lemma soft_delete_without_dependents_witness :
  (destroy default_settings 0 quiet one_row_returned nothing_fetched
     bookshelf_destroy items order42 (Some 0) (world_of ∅)).1.1
  = Ok tt.
Proof.
  assert (prop (∅ : object) "hardDelete" ≠ OVal (JBool true)) as Hh
    by (vm_compute; discriminate).
  by rewrite (soft_delete_without_dependents default_settings 0 quiet
                one_row_returned nothing_fetched bookshelf_destroy items
                order42 (Some 0) (world_of ∅) (world_of ∅) 0 ∅ eq_refl
                eq_refl eq_refl Hh default_events (RespRows [JNum 42])
                (or_introl eq_refl) eq_refl eq_refl eq_refl eq_refl eq_refl).
Defined.

Lemma unnamed_dependent_throws_witness :
  ∃ message,
    (cascade two_items (proto_class orders_with_typo)
       (map (relation_method
               (destroy no_events 0 quiet one_row_counted two_items
                  bookshelf_destroy))
            (proto_relations orders_with_typo))
       order42 0 (world_of ∅)).1
    = Err (TypeError message).
Proof.
  assert (Forall
            (λ d, is_Some
                    (list_to_map (M := gmap string Relation)
                       (map (relation_method
                               (destroy no_events 0 quiet one_row_counted
                                  two_items bookshelf_destroy))
                          (proto_relations orders_with_typo)) !! d))
            ["items"]) as Hnamed.
  { apply Forall_cons_2; [|apply Forall_nil_2].
    apply not_eq_None_Some. intros Hn.
    apply not_elem_of_list_to_map_2 in Hn. apply Hn. vm_compute.
    apply list_elem_of_here. }
  destruct (unnamed_dependent_throws no_events 0 quiet one_row_counted
              two_items bookshelf_destroy orders_with_typo order42 0
              (world_of ∅) ["items"] "notes" [] eq_refl
              ltac:(simpl; lia) Hnamed)
    as [message Hm].
  - vm_compute. reflexivity.
  - exists message. by rewrite Hm.
Defined.

Lemma updates_share_transaction_witness :
  ∃ tr,
    trace (destroy no_events 0 quiet one_row_counted two_items
             bookshelf_destroy orders_proto order42 (Some 0)
             (world_of {[ "transacting" := OVal (JHost 1) ]})).2
    = tr
    ∧ ∀ upd, EUpdate upd ∈ tr →
             u_transacting upd = Some (OVal (JHost 1)).
Proof.
  destruct (updates_share_transaction no_events 0 quiet one_row_counted
              two_items bookshelf_destroy orders_proto order42 (Some 0)
              (world_of {[ "transacting" := OVal (JHost 1) ]}))
    as (tr & Htr & Hupd & _).
  - intros k [= <-]. simpl. lia.
  - exists tr. split; [exact Htr|]. intros upd Hin.
    rewrite (Hupd upd Hin). vm_compute. reflexivity.
Defined.

Lemma soft_delete_never_physical_witness :
  ∃ tr,
    trace (destroy default_settings 0 quiet one_row_returned two_items
             bookshelf_destroy orders_proto order42 (Some 0)
             (world_of ∅)).2
    = tr
    ∧ Forall (λ e, ∀ d, e ≠ EOriginalDestroy d) tr.
Proof.
  assert (prop (∅ : object) "hardDelete" ≠ OVal (JBool true)) as Hh
    by (vm_compute; discriminate).
  destruct (soft_delete_never_physical default_settings 0 quiet
              one_row_returned two_items bookshelf_destroy orders_proto
              order42 (Some 0) (world_of ∅) (world_of ∅) 0 ∅ eq_refl eq_refl
              eq_refl Hh)
    as (tr & Htr & Hok).
  exists tr. split; [exact Htr | exact Hok].
Defined.

Lemma other_options_untouched_witness :
  heap (destroy default_settings 0 quiet one_row_returned two_items
          bookshelf_destroy orders_proto order42 (Some 1)
          {| heap := [ {[ "withDeleted" := OVal (JBool true) ]}; ∅ ];
             trace := [] |}).2 !! 0
  = Some {[ "withDeleted" := OVal (JBool true) ]}.
Proof.
  assert (prop (∅ : object) "hardDelete" ≠ OVal (JBool true)) as Hh
    by (vm_compute; discriminate).
  apply (proj2
           (other_options_untouched default_settings 0 quiet
              one_row_returned two_items bookshelf_destroy orders_proto
              order42 (Some 1)
              {| heap := [ {[ "withDeleted" := OVal (JBool true) ]}; ∅ ];
                 trace := [] |}
              {| heap := [ {[ "withDeleted" := OVal (JBool true) ]}; ∅ ];
                 trace := [] |} 1 ∅ eq_refl eq_refl eq_refl Hh) 0).
  - simpl. lia.
  - discriminate.
Defined.

Lemma require_rejects_empty_response_witness :
  destroy default_settings 0 quiet no_row_returned nothing_fetched
    bookshelf_destroy items order42 (Some 0)
    (world_of {[ "require" := OVal (JBool true) ]})
  = (Err (NoRowsDeletedError "No Rows Deleted"), order42,
     {| heap :=
          [merge is_undefined_opt {[ "require" := OVal (JBool true) ]}
             softDelete_options];
        trace :=
          [ETrigger
             (trigger_record (proto_class items) order42 0
                (merge is_undefined_opt {[ "require" := OVal (JBool true) ]}
                   softDelete_options)
                ("destroying", None));
           EUpdate
             (update_stmt (proto_class items) order42
                (marker_attrs default_settings 0 (proto_class items))
                (merge is_undefined_opt {[ "require" := OVal (JBool true) ]}
                   softDelete_options))] |}).
Proof.
  assert (prop ({[ "require" := OVal (JBool true) ]} : object) "hardDelete"
          ≠ OVal (JBool true)) as Hh
    by (vm_compute; discriminate).
  by rewrite (require_rejects_empty_response default_settings 0 quiet
                no_row_returned nothing_fetched bookshelf_destroy items
                order42 (Some 0)
                (world_of {[ "require" := OVal (JBool true) ]})
                (world_of {[ "require" := OVal (JBool true) ]}) 0
                {[ "require" := OVal (JBool true) ]}
                eq_refl eq_refl eq_refl Hh (RespRows [])
                eq_refl eq_refl eq_refl eq_refl).
Defined.
